(** * Trivia game core: session selection, availability, scoring, phases

    A shallow embedding of the game logic of the React component [App] and of
    the data declarations of [types.ts].

    Conventions of the embedding:
    - a JavaScript [number] holding an identifier, a point value or a score
      is an integer of [Z], and a sum is the exact sum.  The code adds
      doubles: its sum is the exact one when the two numbers and their sum
      are safe integers (at most 2^53 - 1 in absolute value), and the
      theorems that equate a score with a sum assume that much;
    - [Set<number>] is a [gset Z], [Map<Difficulty, TriviaQuestion[]>] is a
      [gmap Difficulty (list TriviaQuestion)];
    - the component's [useState] cells are the fields of the record [State];
      an event handler is a function from the state it was rendered with to
      the state after all its setter calls have been applied;
    - [Math.random()] is an argument of the handler that calls it, a rational
      of the interval [0, 1), and its product with a length is the exact
      product.  The code rounds that product to a double before it takes the
      floor, so for one and the same draw it may index a neighbouring
      element; no statement below says which element a draw selects, each
      holds for every draw.  The comparator-driven shuffle
      [sort(() => 0.5 - Math.random())] is an argument too, a function on
      lists, and the theorems that need it assume it permutes its input. *)

From Stdlib Require Import QArith Qround.
From stdpp Require Import base numbers list strings gmap fin_sets countable.

#[local] Set Warnings "-clear-no-such-hyp".

Open Scope Z_scope.

(** ** Data declarations ([types.ts]) *)

Inductive Difficulty : Set := Fácil | Medio | Difícil | Experto.

Inductive GameState : Set :=
  Start | ChoosingDifficulty | Answering | Answered | GameOver.

Record TriviaQuestion : Set := mkTriviaQuestion {
  id : Z;
  nivel : Difficulty;
  categoría : string;
  subcategoría : string;
  pregunta : string;
  opciones : list string;
  respuesta_correcta : string;
  explicación : string;
  tipo : string;
  puntuacion : Z
}.

Record Feedback : Set := mkFeedback {
  isCorrect : bool;
  correctAnswer : string;
  explanation : string
}.

#[global] Instance Difficulty_eq_dec : EqDecision Difficulty.
Proof. solve_decision. Defined.

#[global] Instance GameState_eq_dec : EqDecision GameState.
Proof. solve_decision. Defined.

Definition Difficulty_to_nat (d : Difficulty) : nat :=
  match d with Fácil => 0 | Medio => 1 | Difícil => 2 | Experto => 3 end%nat.

Definition Difficulty_of_nat (n : nat) : option Difficulty :=
  match n with
  | 0 => Some Fácil | 1 => Some Medio | 2 => Some Difícil | 3 => Some Experto
  | _ => None
  end%nat.

#[global] Instance Difficulty_countable : Countable Difficulty :=
  inj_countable Difficulty_to_nat Difficulty_of_nat
    (λ d, match d with
          | Fácil | Medio | Difícil | Experto => eq_refl
          end).

(** [>=] and [>] on lengths and sizes, decided as the flipped [≤] and [<]. *)
#[global] Instance nat_ge_dec (x y : nat) : Decision (x ≥ y)%nat :=
  decide (y ≤ x)%nat.

#[global] Instance nat_gt_dec (x y : nat) : Decision (x > y)%nat :=
  decide (y < x)%nat.

#[global] Instance TriviaQuestion_eq_dec : EqDecision TriviaQuestion.
Proof. solve_decision. Defined.

#[global] Instance Feedback_eq_dec : EqDecision Feedback.
Proof. solve_decision. Defined.

(** ** The component's state: one field per [useState] cell *)

Record State := mkState {
  gameState : GameState;
  allQuestions : list TriviaQuestion;
  sessionQuestions : list TriviaQuestion;
  usedQuestionIds : gset Z;
  currentQuestion : option TriviaQuestion;
  score : Z;
  selectedAnswer : option string;
  feedback : option Feedback
}.

(** The state the component is mounted with: every [useState] initial value. *)
Definition initialState : State :=
  mkState Start [] [] ∅ None 0 None None.

(** The setters returned by [useState].  [setScore] and [setUsedQuestionIds]
    are also called with an updater function of the previous value; those
    calls are [updScore] and [updUsedQuestionIds]. *)

Definition setGameState (v : GameState) (st : State) : State :=
  mkState v (allQuestions st) (sessionQuestions st) (usedQuestionIds st)
    (currentQuestion st) (score st) (selectedAnswer st) (feedback st).

Definition setAllQuestions (v : list TriviaQuestion) (st : State) : State :=
  mkState (gameState st) v (sessionQuestions st) (usedQuestionIds st)
    (currentQuestion st) (score st) (selectedAnswer st) (feedback st).

Definition setSessionQuestions (v : list TriviaQuestion) (st : State) : State :=
  mkState (gameState st) (allQuestions st) v (usedQuestionIds st)
    (currentQuestion st) (score st) (selectedAnswer st) (feedback st).

Definition updUsedQuestionIds (f : gset Z → gset Z) (st : State) : State :=
  mkState (gameState st) (allQuestions st) (sessionQuestions st)
    (f (usedQuestionIds st))
    (currentQuestion st) (score st) (selectedAnswer st) (feedback st).

Definition setUsedQuestionIds (v : gset Z) : State → State :=
  updUsedQuestionIds (λ _, v).

Definition setCurrentQuestion (v : option TriviaQuestion) (st : State) : State :=
  mkState (gameState st) (allQuestions st) (sessionQuestions st)
    (usedQuestionIds st) v (score st) (selectedAnswer st) (feedback st).

Definition updScore (f : Z → Z) (st : State) : State :=
  mkState (gameState st) (allQuestions st) (sessionQuestions st)
    (usedQuestionIds st) (currentQuestion st) (f (score st))
    (selectedAnswer st) (feedback st).

Definition setScore (v : Z) : State → State := updScore (λ _, v).

Definition setSelectedAnswer (v : option string) (st : State) : State :=
  mkState (gameState st) (allQuestions st) (sessionQuestions st)
    (usedQuestionIds st) (currentQuestion st) (score st) v (feedback st).

Definition setFeedback (v : option Feedback) (st : State) : State :=
  mkState (gameState st) (allQuestions st) (sessionQuestions st)
    (usedQuestionIds st) (currentQuestion st) (score st) (selectedAnswer st) v.

(** A handler's setter calls, applied in the order they are written. *)
Notation "st '|>' f" := (f st)
  (at level 45, left associativity, only parsing).

(** ** Safe integers *)

(** [Number.MAX_SAFE_INTEGER] and [Number.isSafeInteger] on integers: the
    range in which a sum of doubles is the sum of the integers. *)
Definition MAX_SAFE_INTEGER : Z := 2 ^ 53 - 1.

Definition isSafeInteger (n : Z) : bool :=
  (- MAX_SAFE_INTEGER <=? n) && (n <=? MAX_SAFE_INTEGER).

(** ** Randomness *)

(** A value returned by [Math.random()]: a rational [r] with [0 <= r < 1].
    The range is kept as a boolean equation, so a draw is built by
    computation. *)
Record Random := mkRandom {
  rnd : Q;
  rnd_range : Qle_bool 0 rnd && negb (Qle_bool 1 rnd) = true
}.

(** [Math.floor(random * length)], on the exact product. *)
Definition floorTimes (random : Random) (length : nat) : nat :=
  Z.to_nat (Qfloor (rnd random * inject_Z (Z.of_nat length))).

(** What [sort(() => 0.5 - Math.random())] does to a copy of its array. *)
Definition Shuffle := list TriviaQuestion → list TriviaQuestion.

Definition QUESTIONS_PER_DIFFICULTY : nat := 10.

(** ** Events *)

(** The five input events, each with the random choices its handler makes. *)
Inductive Event :=
  | StartGame (shuffle : Shuffle)
  | SelectDifficulty (random : Random) (difficulty : Difficulty)
  | SubmitAnswer (answer : string)
  | Continue
  | EndGame.

(** An event of a running session: anything but a new [StartGame]. *)
Definition inSession (e : Event) : bool :=
  match e with StartGame _ => false | _ => true end.

(** What [loadAndCleanQuestions()] (of [./services/gameService], not among
    the sources) settles to: the bank, or a failure. *)
Inductive LoadResult :=
  | Resolved (questions : list TriviaQuestion)
  | Rejected.

(** Everything that changes the component's state: a user event, or the
    mount effect's load settling. *)
Inductive Action :=
  | User (e : Event)
  | Fetched (result : LoadResult).

(** ** What is rendered *)

(** The data props of [QuestionCard] and of [ResultScreen]; the callback
    props are the handlers named in [renderContent]. *)
Record QuestionCardProps := mkQuestionCardProps {
  card_question : TriviaQuestion;
  card_selectedAnswer : option string;
  card_feedback : option Feedback
}.

Record ResultScreenProps := mkResultScreenProps {
  result_feedback : option Feedback;
  result_score : Z;
  result_isGameOver : bool
}.

(** The element [renderContent] returns.  [QuestionView] is the [div] of the
    phases [Answering] and [Answered], whose two children are conditional. *)
Inductive Content :=
  | StartScreen
  | DifficultySelector (availableCounts : gmap Difficulty nat)
  | QuestionView (questionCard : option QuestionCardProps)
                 (resultScreen : option ResultScreenProps)
  | ResultScreen (props : ResultScreenProps).

(** ** Sample data for the examples *)

(** Modelled from the spec: the value of the constant [DIFFICULTIES] of
    [./constants], a file that is not among the sources.  The spec calls it
    the fixed tier enumeration, ordered from easiest to hardest; this is the
    four tiers of [Difficulty] in the order [types.ts] lists them.  Only the
    examples use it: the theorems are stated for any list. *)
Definition fourTiers : list Difficulty := [Fácil; Medio; Difícil; Experto].

(** A question with the given identifier, tier, correct answer and value. *)
Definition sampleQuestion (i : Z) (d : Difficulty) (answer : string) (p : Z)
    : TriviaQuestion :=
  mkTriviaQuestion i d "categoria" "subcategoria" "pregunta"
    [answer; "otra"] answer "explicacion" "opcion multiple" p.

Definition sampleBank : list TriviaQuestion :=
  [sampleQuestion 1 Fácil "a" 1; sampleQuestion 2 Medio "b" 2;
   sampleQuestion 3 Fácil "c" 1].

(** The used set once question 1 has been presented. *)
Definition sampleUsed : gset Z := {[ 1 ]}.

(** A bank whose only question takes five points away. *)
Definition penaltyBank : list TriviaQuestion :=
  [sampleQuestion 7 Fácil "a" (-5)].

(** The component once the effect that fetches the bank has stored it. *)
Definition loaded (bank : list TriviaQuestion) : State :=
  initialState |> setAllQuestions bank.

(** Two draws of [Math.random()]. *)
Definition drawZero : Random := mkRandom 0 eq_refl.
Definition drawHalf : Random := mkRandom (1 # 2) eq_refl.

(** A shuffle that happens to leave every list as it is. *)
Definition keepOrder : Shuffle := λ l, l.

(** Plays of a running session: a correct answer; the same correct answer
    submitted twice; and a longer play cut in two. *)
Definition answerOnce : list Event :=
  [SelectDifficulty drawZero Fácil; SubmitAnswer "a"].

Definition answerTwice : list Event :=
  [SelectDifficulty drawZero Fácil; SubmitAnswer "a"; SubmitAnswer "a"].

Definition secondRound : list Event :=
  [Continue; SelectDifficulty drawHalf Medio; SubmitAnswer "x"; Continue;
   SelectDifficulty drawZero Fácil].

(** Histories of the component: a load that succeeds, then a game up to its
    first question; and a load that fails, then an attempt to play. *)
Definition sampleHistory : list Action :=
  [Fetched (Resolved sampleBank); User (StartGame keepOrder);
   User (SelectDifficulty drawZero Fácil)].

Definition failedHistory : list Action :=
  [Fetched Rejected; User (StartGame keepOrder);
   User (SelectDifficulty drawZero Fácil); User (SubmitAnswer "a");
   User Continue].

(** ** The component's logic *)

Section App.

(** [DIFFICULTIES] is imported from [./constants]; the logic below only
    iterates over it, so it is kept abstract.  The theorems that need it to
    list every tier, or to list no tier twice, say so. *)
Variable DIFFICULTIES : list Difficulty.

(** [fetchQuestions], run by the mount effect: the loaded bank is stored; a
    failure is logged and nothing is stored. *)
Definition fetchQuestions (result : LoadResult) (st : State) : State :=
  match result with
  | Resolved questions => st |> setAllQuestions questions
  | Rejected => st
  end.

(** [selectSessionQuestions]: for each tier in turn, the bank's questions of
    that tier are shuffled and the first ten are pushed onto the result. *)
Definition selectSessionQuestions (shuffle : Shuffle)
    (allQuestions : list TriviaQuestion) : list TriviaQuestion :=
  if bool_decide (length allQuestions = 0%nat) then []
  else
    foldl (λ newSessionQuestions difficulty,
             let questionsOfDifficulty :=
               filter (λ q, nivel q = difficulty) allQuestions in
             let shuffled := shuffle questionsOfDifficulty in
             let selected := take QUESTIONS_PER_DIFFICULTY shuffled in
             newSessionQuestions ++ selected)
          [] DIFFICULTIES.

(** [handleStartGame] *)
Definition handleStartGame (shuffle : Shuffle) (st : State) : State :=
  st |> setScore 0
     |> setUsedQuestionIds ∅
     |> setCurrentQuestion None
     |> setSelectedAnswer None
     |> setFeedback None
     |> setSessionQuestions (selectSessionQuestions shuffle (allQuestions st))
     |> setGameState ChoosingDifficulty.

(** [availableQuestionsByDifficulty], a memo of [sessionQuestions] and
    [usedQuestionIds]. *)
Definition availableQuestionsByDifficulty
    (sessionQuestions : list TriviaQuestion) (usedQuestionIds : gset Z)
    : gmap Difficulty (list TriviaQuestion) :=
  foldl (λ available diff,
           let filtered :=
             filter (λ q, nivel q = diff ∧ id q ∉ usedQuestionIds)
                    sessionQuestions in
           <[diff := filtered]> available)
        ∅ DIFFICULTIES.

(** [availableCounts]: the length of every entry of the map above. *)
Definition availableCounts
    (sessionQuestions : list TriviaQuestion) (usedQuestionIds : gset Z)
    : gmap Difficulty nat :=
  length <$> availableQuestionsByDifficulty sessionQuestions usedQuestionIds.

(** [isGameFinished], a memo of [usedQuestionIds.size] and
    [sessionQuestions.length]. *)
Definition isGameFinished
    (sessionQuestions : list TriviaQuestion) (usedQuestionIds : gset Z) : bool :=
  if bool_decide (length sessionQuestions = 0%nat) then false
  else bool_decide (size usedQuestionIds ≥ length sessionQuestions)%nat.

(** [handleSelectDifficulty].  The innermost [None] stands for an index past
    the end of [availableQuestions]; [floorTimes_lt] shows it is never taken. *)
Definition handleSelectDifficulty (random : Random) (difficulty : Difficulty)
    (st : State) : State :=
  match availableQuestionsByDifficulty (sessionQuestions st) (usedQuestionIds st)
          !! difficulty with
  | Some availableQuestions =>
      if bool_decide (length availableQuestions > 0)%nat then
        let questionIndex := floorTimes random (length availableQuestions) in
        match availableQuestions !! questionIndex with
        | Some question =>
            st |> setCurrentQuestion (Some question)
               |> updUsedQuestionIds (λ prev, prev ∪ {[ id question ]})
               |> setGameState Answering
               |> setSelectedAnswer None
               |> setFeedback None
        | None => st
        end
      else st
  | None => st
  end.

(** [handleAnswer] *)
Definition handleAnswer (answer : string) (st : State) : State :=
  match currentQuestion st with
  | None => st
  | Some currentQuestion =>
      let isCorrect := String.eqb answer (respuesta_correcta currentQuestion) in
      st |> setSelectedAnswer (Some answer)
         |> (if isCorrect
             then updScore (λ prevScore, prevScore + puntuacion currentQuestion)
             else λ st, st)
         |> setFeedback (Some (mkFeedback isCorrect
                                 (respuesta_correcta currentQuestion)
                                 (explicación currentQuestion)))
         |> setGameState Answered
  end.

(** [handleContinue] *)
Definition handleContinue (st : State) : State :=
  if isGameFinished (sessionQuestions st) (usedQuestionIds st)
  then st |> setGameState GameOver
  else st |> setGameState ChoosingDifficulty.

(** [handleEndGame] *)
Definition handleEndGame (st : State) : State :=
  st |> setGameState GameOver.

(** [renderContent].  The [default] branch of the [switch] is left out:
    [GameState] has no sixth value. *)
Definition renderContent (st : State) : Content :=
  match gameState st with
  | Start => StartScreen
  | ChoosingDifficulty =>
      DifficultySelector
        (availableCounts (sessionQuestions st) (usedQuestionIds st))
  | Answering | Answered =>
      QuestionView
        (match currentQuestion st with
         | Some question =>
             Some (mkQuestionCardProps question (selectedAnswer st)
                     (feedback st))
         | None => None
         end)
        (if bool_decide (gameState st = Answered)
         then Some (mkResultScreenProps (feedback st) (score st) false)
         else None)
  | GameOver => ResultScreen (mkResultScreenProps None (score st) true)
  end.

(** ** Plays: sequences of user actions *)

Definition step (st : State) (e : Event) : State :=
  match e with
  | StartGame shuffle => handleStartGame shuffle st
  | SelectDifficulty random difficulty =>
      handleSelectDifficulty random difficulty st
  | SubmitAnswer answer => handleAnswer answer st
  | Continue => handleContinue st
  | EndGame => handleEndGame st
  end.

Definition run (st : State) (events : list Event) : State :=
  foldl step st events.

Definition act (st : State) (a : Action) : State :=
  match a with
  | User e => step st e
  | Fetched result => fetchQuestions result st
  end.

(** The component's history: from the state it is mounted with, any
    interleaving of user events and settled loads. *)
Definition runActions (st : State) (actions : list Action) : State :=
  foldl act st actions.


(** ** Vocabulary of the statements *)

(** The questions of tier [T] in [S] that are not yet used, in [S]'s order. *)
Definition unusedOfTier (T : Difficulty) (S : list TriviaQuestion) (U : gset Z)
    : list TriviaQuestion :=
  filter (λ q, id q ∉ U) (filter (λ q, nivel q = T) S).

(** The question a [handleSelectDifficulty random difficulty] presents, if
    any: the entry of the availability map at the drawn index. *)
Definition presentedBy (random : Random) (difficulty : Difficulty) (st : State)
    : option TriviaQuestion :=
  availableQuestions ←
    availableQuestionsByDifficulty (sessionQuestions st) (usedQuestionIds st)
      !! difficulty;
  availableQuestions !! floorTimes random (length availableQuestions).

(** The questions [selectSessionQuestions] pushes for one tier. *)
Definition selectedOfTier (shuffle : Shuffle) (B : list TriviaQuestion)
    (T : Difficulty) : list TriviaQuestion :=
  take QUESTIONS_PER_DIFFICULTY (shuffle (filter (λ q, nivel q = T) B)).

(** The questions a play presents, in order: one entry for every
    [SelectDifficulty] that finds a question. *)
Fixpoint presented (st : State) (events : list Event) : list TriviaQuestion :=
  match events with
  | [] => []
  | e :: events =>
      match e with
      | SelectDifficulty random difficulty =>
          option_list (presentedBy random difficulty st)
      | _ => []
      end ++ presented (step st e) events
  end.

(** The questions a play answers correctly, in order: one entry for every
    [SubmitAnswer] whose text is the correct answer of the question that is
    current at that moment (so a question submitted correctly twice is
    listed twice). *)
Fixpoint answeredCorrectly (st : State) (events : list Event)
    : list TriviaQuestion :=
  match events with
  | [] => []
  | e :: events =>
      match e, currentQuestion st with
      | SubmitAnswer answer, Some q =>
          if String.eqb answer (respuesta_correcta q) then [q] else []
      | _, _ => []
      end ++ answeredCorrectly (step st e) events
  end.

(** The sum of the point values of a list of questions. *)
Definition points (l : list TriviaQuestion) : Z :=
  foldr (λ q total, puntuacion q + total) 0 l.

(** No question that can be asked in this session has a negative value. *)
Definition nonnegPoints (st : State) : Prop :=
  ∀ q, (q ∈ sessionQuestions st ∨ currentQuestion st = Some q) →
       0 <= puntuacion q.

(** The play stays within the safe integers: the score is a safe integer
    before and after every event, and so is every point value that a correct
    submission adds.  Along such a play each addition of the code is
    exact. *)
Fixpoint safePlay (st : State) (events : list Event) : bool :=
  isSafeInteger (score st)
  && match events with
     | [] => true
     | e :: events =>
         forallb (λ q, isSafeInteger (puntuacion q)) (answeredCorrectly st [e])
         && safePlay (step st e) events
     end.

(** Every used identifier is the identifier of a session question. *)
Definition usedWithinSession (st : State) : Prop :=
  usedQuestionIds st ⊆ list_to_set (map id (sessionQuestions st)).

(** What every state of the component's history satisfies: the used
    identifiers are session identifiers; the current question is a used
    session question; a feedback is the verdict on the stored answer to the
    current question; an answer is stored only together with a feedback; and
    each phase comes with the cells it needs. *)
Definition coherent (st : State) : Prop :=
  usedWithinSession st
  ∧ (∀ q, currentQuestion st = Some q →
          q ∈ sessionQuestions st ∧ id q ∈ usedQuestionIds st)
  ∧ (∀ f, feedback st = Some f →
          ∃ q a, currentQuestion st = Some q ∧ selectedAnswer st = Some a
                 ∧ f = mkFeedback (String.eqb a (respuesta_correcta q))
                         (respuesta_correcta q) (explicación q))
  ∧ (feedback st = None → selectedAnswer st = None)
  ∧ match gameState st with
    | Start =>
        sessionQuestions st = [] ∧ usedQuestionIds st = ∅
        ∧ currentQuestion st = None ∧ score st = 0 ∧ feedback st = None
    | Answering => is_Some (currentQuestion st) ∧ feedback st = None
    | Answered => is_Some (feedback st)
    | ChoosingDifficulty | GameOver => True
    end.

(** A load that brings no question: a failure, or an empty bank. *)
Definition bringsNothing (a : Action) : bool :=
  match a with
  | Fetched (Resolved (_ :: _)) => false
  | _ => true
  end.

(** Nothing has been loaded and nothing can be played. *)
Definition barren (st : State) : Prop :=
  allQuestions st = [] ∧ sessionQuestions st = [] ∧ usedQuestionIds st = ∅
  ∧ currentQuestion st = None ∧ score st = 0 ∧ selectedAnswer st = None
  ∧ feedback st = None
  ∧ gameState st ≠ Answering ∧ gameState st ≠ Answered.

(** ** Properties *)

(** *** Random draws *)

Lemma Random_range (random : Random) : (0 <= rnd random)%Q ∧ (rnd random < 1)%Q.
Proof.
  destruct random as [r Hr]; simpl.
  apply andb_true_iff in Hr as [H0 H1].
  apply Qle_bool_iff in H0. split; [done|].
  apply negb_true_iff in H1. apply Qnot_le_lt. intros Hle.
  apply Qle_bool_iff in Hle. congruence.
Qed.

Lemma floorTimes_lt (random : Random) (n : nat) :
  (0 < n)%nat → (floorTimes random n < n)%nat.
Proof.
  intros Hn. destruct (Random_range random) as [H0 H1].
  unfold floorTimes.
  set (x := (rnd random * inject_Z (Z.of_nat n))%Q).
  assert (Hn' : (0 < inject_Z (Z.of_nat n))%Q).
  { change 0%Q with (inject_Z 0). rewrite <- Zlt_Qlt. lia. }
  assert (Hx0 : (0 <= x)%Q).
  { apply Qmult_le_0_compat; [done|]. by apply Qlt_le_weak. }
  assert (Hx1 : (x < inject_Z (Z.of_nat n))%Q).
  { unfold x. rewrite <- (Qmult_1_l (inject_Z (Z.of_nat n))) at 2.
    by apply Qmult_lt_compat_r. }
  assert (Hlo : (0 <= Qfloor x)%Z).
  { change 0%Z with (Qfloor 0). by apply Qfloor_resp_le. }
  assert (Hhi : (Qfloor x < Z.of_nat n)%Z).
  { rewrite Zlt_Qlt. eapply Qle_lt_trans; [apply Qfloor_le | done]. }
  lia.
Qed.

(** *** Availability *)

Lemma filter_tier_unused (T : Difficulty) (S : list TriviaQuestion) (U : gset Z) :
  filter (λ q, nivel q = T ∧ id q ∉ U) S = unusedOfTier T S U.
Proof.
  unfold unusedOfTier. rewrite list_filter_filter.
  apply list_filter_iff. tauto.
Qed.

Lemma available_foldl_lookup (S : list TriviaQuestion) (U : gset Z)
    (ds : list Difficulty) (m : gmap Difficulty (list TriviaQuestion))
    (T : Difficulty) :
  foldl (λ available diff,
           <[diff := filter (λ q, nivel q = diff ∧ id q ∉ U) S]> available)
        m ds !! T
  = if decide (T ∈ ds) then Some (unusedOfTier T S U) else m !! T.
Proof.
  revert m. induction ds as [|d ds IH]; intros m; cbn [foldl].
  - case_decide as Hin; [by apply elem_of_nil in Hin | done].
  - rewrite IH. destruct (decide (T ∈ ds)) as [Hin|Hin].
    + rewrite decide_True by (by right). done.
    + destruct (decide (T = d)) as [->|Hne].
      * rewrite decide_True by left.
        by rewrite lookup_insert_eq, filter_tier_unused.
      * rewrite decide_False by (intros [?|?]%elem_of_cons; done).
        by rewrite lookup_insert_ne.
Qed.

Lemma available_lookup (S : list TriviaQuestion) (U : gset Z) (T : Difficulty) :
  availableQuestionsByDifficulty S U !! T
  = if decide (T ∈ DIFFICULTIES) then Some (unusedOfTier T S U) else None.
Proof.
  unfold availableQuestionsByDifficulty. rewrite available_foldl_lookup.
  by rewrite lookup_empty.
Qed.

(** Splitting a list by tier loses and repeats nothing. *)
Lemma concat_tiers_skip (q : TriviaQuestion) (l : list TriviaQuestion)
    (ds : list Difficulty) :
  nivel q ∉ ds →
  concat (map (λ T, filter (λ q, nivel q = T) (q :: l)) ds)
  = concat (map (λ T, filter (λ q, nivel q = T) l) ds).
Proof.
  induction ds as [|d ds IH]; intros Hq; [done|].
  apply not_elem_of_cons in Hq as [Hne Hq]. simpl.
  rewrite filter_cons, decide_False by done. f_equal. by apply IH.
Qed.

Lemma concat_tiers_cons (q : TriviaQuestion) (l : list TriviaQuestion)
    (ds : list Difficulty) :
  NoDup ds → nivel q ∈ ds →
  concat (map (λ T, filter (λ q, nivel q = T) (q :: l)) ds)
  ≡ₚ q :: concat (map (λ T, filter (λ q, nivel q = T) l) ds).
Proof.
  induction ds as [|d ds IH]; intros Hnd Hin.
  - by apply elem_of_nil in Hin.
  - pose proof (NoDup_cons_1_1 _ _ Hnd) as Hd.
    apply NoDup_cons_1_2 in Hnd. simpl.
    rewrite filter_cons. destruct (decide (nivel q = d)) as [Heq|Hne].
    + rewrite concat_tiers_skip by (by rewrite Heq). done.
    + apply elem_of_cons in Hin as [?|Hin]; [congruence|].
      rewrite IH by done. by rewrite Permutation_middle.
Qed.

Lemma concat_tiers_perm (l : list TriviaQuestion) (ds : list Difficulty) :
  NoDup ds → (∀ d, d ∈ ds) →
  concat (map (λ T, filter (λ q, nivel q = T) l) ds) ≡ₚ l.
Proof.
  intros Hnd Hall. induction l as [|q l IH].
  - induction ds as [|d ds IHds]; [done|]. simpl.
    clear. induction ds; simpl; auto.
  - rewrite concat_tiers_cons by done. by f_equiv.
Qed.

(** [C3].  Whatever the session [S] and the used set [U], for a
    [DIFFICULTIES] that lists every tier, once: for every tier [T] the map
    built by [availableQuestionsByDifficulty] holds, at [T], the questions of
    tier [T] of [S] whose identifier is not in [U], in the order they have in
    [S] (a filter of a filter of [S], hence a sublist of [S]); and the
    entries of all tiers, put together with the questions of [S] whose
    identifier is in [U], are a rearrangement of [S], and so are their
    identifiers of the identifiers of [S]: every member of the session is
    counted exactly once. *)
Theorem availableQuestionsByDifficulty_partition
    (S : list TriviaQuestion) (U : gset Z) :
  NoDup DIFFICULTIES → (∀ d, d ∈ DIFFICULTIES) →
  let available := availableQuestionsByDifficulty S U in
  let perTier := map (λ T, default [] (available !! T)) DIFFICULTIES in
  let used := filter (λ q, id q ∈ U) S in
  (∀ T, available !! T
        = Some (filter (λ q, id q ∉ U) (filter (λ q, nivel q = T) S))
        ∧ filter (λ q, id q ∉ U) (filter (λ q, nivel q = T) S) `sublist_of` S)
  ∧ concat perTier ++ used ≡ₚ S
  ∧ map id (concat perTier) ++ map id used ≡ₚ map id S.
Proof.
  intros Hnd Hall available perTier used.
  assert (Hlook : ∀ T, available !! T = Some (unusedOfTier T S U)).
  { intros T. unfold available. rewrite available_lookup.
    by rewrite decide_True. }
  assert (Hperm : concat perTier ++ used ≡ₚ S).
  { assert (perTier
            = map (λ T, filter (λ q, nivel q = T) (filter (λ q, id q ∉ U) S))
                  DIFFICULTIES) as ->.
    { unfold perTier. apply map_ext. intros T. rewrite Hlook. simpl.
      unfold unusedOfTier. rewrite !list_filter_filter.
      apply list_filter_iff. tauto. }
    rewrite concat_tiers_perm by done.
    etrans; [|apply (filter_app_complement (λ q, id q ∉ U) S)].
    f_equiv. unfold used.
    rewrite (list_filter_iff (λ q, id q ∈ U) (λ q, ¬ (id q ∉ U))); [done|].
    intros q. split; [tauto | apply dec_stable]. }
  split; [|split].
  - intros T. split; [apply Hlook|].
    etrans; apply sublist_filter.
  - done.
  - by rewrite <- map_app, Hperm.
Qed.

Lemma handleSelectDifficulty_presentedBy random difficulty st :
  handleSelectDifficulty random difficulty st
  = match presentedBy random difficulty st with
    | Some question =>
        mkState Answering (allQuestions st) (sessionQuestions st)
          (usedQuestionIds st ∪ {[ id question ]}) (Some question)
          (score st) None None
    | None => st
    end.
Proof.
  unfold handleSelectDifficulty, presentedBy.
  destruct (availableQuestionsByDifficulty _ _ !! difficulty) as [l|]; simpl;
    [|done].
  case_bool_decide as Hlen.
  - by destruct (l !! _).
  - destruct l; [done | simpl in Hlen; lia].
Qed.

Lemma presentedBy_Some random difficulty st question :
  presentedBy random difficulty st = Some question →
  difficulty ∈ DIFFICULTIES ∧
  question ∈ unusedOfTier difficulty (sessionQuestions st) (usedQuestionIds st).
Proof.
  unfold presentedBy. rewrite available_lookup.
  case_decide; simpl; [|done].
  intros Hq. split; [done|]. by eapply list_elem_of_lookup_2.
Qed.

Lemma presentedBy_is_Some random difficulty st :
  difficulty ∈ DIFFICULTIES →
  unusedOfTier difficulty (sessionQuestions st) (usedQuestionIds st) ≠ [] →
  is_Some (presentedBy random difficulty st).
Proof.
  intros Hin Hne. unfold presentedBy. rewrite available_lookup.
  rewrite decide_True by done. simpl.
  apply lookup_lt_is_Some, floorTimes_lt.
  destruct (unusedOfTier _ _ _); [done | simpl; lia].
Qed.

Lemma presentedBy_None random difficulty st :
  unusedOfTier difficulty (sessionQuestions st) (usedQuestionIds st) = [] →
  presentedBy random difficulty st = None.
Proof.
  intros Hnil. unfold presentedBy. rewrite available_lookup.
  case_decide; simpl; [|done]. by rewrite Hnil.
Qed.

Lemma elem_of_unusedOfTier q T S U :
  q ∈ unusedOfTier T S U ↔ q ∈ S ∧ nivel q = T ∧ id q ∉ U.
Proof. unfold unusedOfTier. rewrite !list_elem_of_filter. tauto. Qed.

(** [C5].  [handleSelectDifficulty] in any state (so in particular in the
    phase [ChoosingDifficulty]), for a tier [T] and any random draw.  If no
    session question of tier [T] is unused, the handler returns the state it
    was given: phase, score, used set, current question, answer and feedback
    are all as before.  If [T] is one of [DIFFICULTIES] and some session
    question of tier [T] is unused, the handler takes one of those unused
    questions, adds its identifier to the used set, makes it the current
    question, empties the answer and the feedback, and sets the phase to
    [Answering]; the score, the session and the bank are as before. *)
Theorem handleSelectDifficulty_guard (random : Random) (T : Difficulty)
    (st : State) :
  let available :=
    filter (λ q, id q ∉ usedQuestionIds st)
           (filter (λ q, nivel q = T) (sessionQuestions st)) in
  (available = [] → handleSelectDifficulty random T st = st)
  ∧ (T ∈ DIFFICULTIES → available ≠ [] →
     ∃ question,
       question ∈ available
       ∧ handleSelectDifficulty random T st
         = mkState Answering (allQuestions st) (sessionQuestions st)
             (usedQuestionIds st ∪ {[ id question ]}) (Some question)
             (score st) None None).
Proof.
  intros available. split.
  - intros Hnil. rewrite handleSelectDifficulty_presentedBy.
    by rewrite presentedBy_None.
  - intros Hin Hne.
    destruct (presentedBy_is_Some random T st Hin Hne) as [q Hq].
    exists q. split.
    + by apply presentedBy_Some in Hq as [_ ?].
    + by rewrite handleSelectDifficulty_presentedBy, Hq.
Qed.

(** *** Session selection *)

Lemma foldl_push_concat {A B : Type} (g : B → list A) (ds : list B)
    (acc : list A) :
  foldl (λ acc d, acc ++ g d) acc ds = acc ++ concat (map g ds).
Proof.
  revert acc. induction ds as [|d ds IH]; intros acc; simpl.
  - by rewrite app_nil_r.
  - by rewrite IH, <- app_assoc.
Qed.

Lemma filter_keeps_all {A : Type} (P : A → Prop) `{!∀ x, Decision (P x)}
    (l : list A) :
  (∀ x, x ∈ l → P x) → filter P l = l.
Proof.
  induction l as [|x l IH]; intros HP; [done|].
  rewrite filter_cons_True by (apply HP; left).
  f_equal. apply IH. intros y ?. apply HP. by right.
Qed.

Lemma filter_keeps_none {A : Type} (P : A → Prop) `{!∀ x, Decision (P x)}
    (l : list A) :
  (∀ x, x ∈ l → ¬ P x) → filter P l = [].
Proof.
  induction l as [|x l IH]; intros HP; [done|].
  rewrite filter_cons_False by (apply HP; left).
  apply IH. intros y ?. apply HP. by right.
Qed.

Lemma elem_of_concat_map {A B : Type} (g : B → list A) (ds : list B) (x : A) :
  x ∈ concat (map g ds) → ∃ d, d ∈ ds ∧ x ∈ g d.
Proof.
  induction ds as [|d ds IH]; simpl.
  - by intros ?%elem_of_nil.
  - intros [Hx|Hx]%elem_of_app.
    + exists d. split; [left | done].
    + destruct (IH Hx) as (d' & ? & ?). exists d'. split; [by right | done].
Qed.

Lemma selectedOfTier_elem shuffle B T q :
  (∀ l, shuffle l ≡ₚ l) →
  q ∈ selectedOfTier shuffle B T → q ∈ B ∧ nivel q = T.
Proof.
  intros Hperm Hq. unfold selectedOfTier in Hq.
  apply (subseteq_take _ _ _) in Hq. rewrite Hperm in Hq.
  by apply list_elem_of_filter in Hq as [? ?].
Qed.

Lemma selectedOfTier_nil shuffle T :
  (∀ l, shuffle l ≡ₚ l) → selectedOfTier shuffle [] T = [].
Proof.
  intros Hperm. unfold selectedOfTier. rewrite filter_nil.
  pose proof (Hperm []) as Hnil. apply Permutation_nil_r in Hnil.
  by rewrite Hnil.
Qed.

Lemma selectSessionQuestions_groups shuffle B :
  (∀ l, shuffle l ≡ₚ l) →
  selectSessionQuestions shuffle B
  = concat (map (selectedOfTier shuffle B) DIFFICULTIES).
Proof.
  intros Hperm. unfold selectSessionQuestions. case_bool_decide as Hlen.
  - apply length_zero_iff_nil in Hlen as ->.
    induction DIFFICULTIES as [|d ds IH]; [done|]. simpl.
    by rewrite selectedOfTier_nil.
  - by rewrite (foldl_push_concat (selectedOfTier shuffle B)).
Qed.

Lemma filter_tier_groups shuffle B T (ds : list Difficulty) :
  (∀ l, shuffle l ≡ₚ l) → NoDup ds →
  filter (λ q, nivel q = T) (concat (map (selectedOfTier shuffle B) ds))
  = if decide (T ∈ ds) then selectedOfTier shuffle B T else [].
Proof.
  intros Hperm. induction ds as [|d ds IH]; intros Hnd.
  - by rewrite decide_False by apply not_elem_of_nil.
  - pose proof (NoDup_cons_1_1 _ _ Hnd) as Hd.
    apply NoDup_cons_1_2 in Hnd. simpl. rewrite list.filter_app, IH by done.
    destruct (decide (T = d)) as [->|Hne].
    + rewrite (decide_True (P := d ∈ d :: ds)) by left.
      rewrite (decide_False (P := d ∈ ds)) by done.
      rewrite app_nil_r. apply filter_keeps_all.
      intros q Hq. by apply (selectedOfTier_elem shuffle B d q Hperm).
    + assert (filter (λ q, nivel q = T) (selectedOfTier shuffle B d) = [])
        as ->.
      { apply filter_keeps_none. intros q Hq.
        apply (selectedOfTier_elem shuffle B d q Hperm) in Hq as [_ ?].
        congruence. }
      simpl. apply decide_ext. rewrite elem_of_cons. tauto.
Qed.

(** [C4].  [selectSessionQuestions] on any bank [B], for a [DIFFICULTIES]
    that lists no tier twice and a shuffle that permutes its input: the
    result has at most 10 questions of any tier [T]; every question of the
    result is a question of [B]; the result is the groups of the tiers, one
    after the other in the order of [DIFFICULTIES], the group of [T] being
    the first 10 of the shuffled questions of tier [T] of [B] and holding
    questions of tier [T] only; and on the empty bank the result is the
    empty list. *)
Theorem selectSessionQuestions_quota (shuffle : Shuffle)
    (B : list TriviaQuestion) :
  NoDup DIFFICULTIES → (∀ l, shuffle l ≡ₚ l) →
  let session := selectSessionQuestions shuffle B in
  (∀ T, (length (filter (λ q, nivel q = T) session) ≤ 10)%nat)
  ∧ (∀ q, q ∈ session → q ∈ B)
  ∧ (session
     = concat (map (λ T, take 10 (shuffle (filter (λ q, nivel q = T) B)))
                   DIFFICULTIES)
     ∧ ∀ T q, q ∈ take 10 (shuffle (filter (λ q, nivel q = T) B)) →
              nivel q = T)
  ∧ selectSessionQuestions shuffle [] = [].
Proof.
  intros Hnd Hperm session.
  assert (Hgroups : session
                    = concat (map (selectedOfTier shuffle B) DIFFICULTIES)).
  { by apply selectSessionQuestions_groups. }
  split; [|split; [|split]].
  - intros T. rewrite Hgroups, filter_tier_groups by done.
    case_decide; simpl; [|lia].
    unfold selectedOfTier, QUESTIONS_PER_DIFFICULTY. rewrite length_take. lia.
  - intros q. rewrite Hgroups. intros Hq.
    apply elem_of_concat_map in Hq as (T & _ & Hq).
    by apply (selectedOfTier_elem shuffle B T q Hperm) in Hq as [? _].
  - split; [done|]. intros T q Hq.
    by apply (selectedOfTier_elem shuffle B T q Hperm) in Hq as [_ ?].
  - done.
Qed.

(** *** Plays *)

Lemma points_app l1 l2 : points (l1 ++ l2) = points l1 + points l2.
Proof. induction l1 as [|q l1 IH]; simpl; [done|]. rewrite IH. lia. Qed.

Lemma points_nonneg l : (∀ q, q ∈ l → 0 <= puntuacion q) → 0 <= points l.
Proof.
  induction l as [|q l IH]; intros Hl; simpl; [done|].
  assert (0 <= puntuacion q) by (apply Hl; left).
  assert (0 <= points l) by (apply IH; intros ? ?; apply Hl; by right).
  lia.
Qed.

Lemma run_app st evs1 evs2 : run st (evs1 ++ evs2) = run (run st evs1) evs2.
Proof. apply foldl_app. Qed.

Lemma handleAnswer_Some answer st q :
  currentQuestion st = Some q →
  handleAnswer answer st
  = mkState Answered (allQuestions st) (sessionQuestions st)
      (usedQuestionIds st) (Some q)
      (if String.eqb answer (respuesta_correcta q)
       then score st + puntuacion q else score st)
      (Some answer)
      (Some (mkFeedback (String.eqb answer (respuesta_correcta q))
                        (respuesta_correcta q) (explicación q))).
Proof.
  intros Hq. unfold handleAnswer. destruct st; simpl in *. subst.
  by destruct (String.eqb answer (respuesta_correcta q)).
Qed.

Lemma handleAnswer_None answer st :
  currentQuestion st = None → handleAnswer answer st = st.
Proof. intros Hq. unfold handleAnswer. by rewrite Hq. Qed.

(** What a step of a running session does to the score. *)
Lemma step_score st e :
  inSession e = true →
  score (step st e) = score st + points (answeredCorrectly st [e]).
Proof.
  intros He. destruct e as [?|random T|answer| |]; simpl in *; try done.
  - rewrite handleSelectDifficulty_presentedBy.
    destruct (presentedBy random T st); simpl; lia.
  - destruct (currentQuestion st) as [q|] eqn:Hq.
    + rewrite (handleAnswer_Some _ _ _ Hq). simpl.
      destruct (String.eqb answer (respuesta_correcta q)); simpl; lia.
    + rewrite (handleAnswer_None _ _ Hq). simpl. lia.
  - unfold handleContinue. destruct (isGameFinished _ _); simpl; lia.
  - lia.
Qed.

Lemma run_score st evs :
  forallb inSession evs = true →
  score (run st evs) = score st + points (answeredCorrectly st evs).
Proof.
  revert st. induction evs as [|e evs IH]; intros st Hevs.
  - simpl. lia.
  - apply andb_true_iff in Hevs as [He Hevs].
    change (run st (e :: evs)) with (run (step st e) evs).
    rewrite IH, (step_score st e) by done.
    cbn [answeredCorrectly]. rewrite !points_app. simpl. lia.
Qed.

Lemma step_sessionQuestions st e :
  inSession e = true → sessionQuestions (step st e) = sessionQuestions st.
Proof.
  intros He. destruct e as [?|random T|answer| |]; simpl in *; try done.
  - rewrite handleSelectDifficulty_presentedBy.
    by destruct (presentedBy random T st).
  - unfold handleAnswer. destruct (currentQuestion st) as [q|]; [|done].
    by destruct (String.eqb answer (respuesta_correcta q)).
  - unfold handleContinue. by destruct (isGameFinished _ _).
Qed.

Lemma step_currentQuestion st e q :
  inSession e = true → currentQuestion (step st e) = Some q →
  currentQuestion st = Some q ∨ q ∈ sessionQuestions st.
Proof.
  intros He. destruct e as [?|random T|answer| |]; simpl in He |- *.
  - discriminate.
  - rewrite handleSelectDifficulty_presentedBy.
    destruct (presentedBy random T st) as [q'|] eqn:Hq'; [|by auto].
    simpl. intros [= ->]. right.
    apply presentedBy_Some in Hq' as [_ Hq'].
    by apply elem_of_unusedOfTier in Hq' as [? _].
  - destruct (currentQuestion st) as [q'|] eqn:Hq'.
    + rewrite (handleAnswer_Some _ _ _ Hq'). simpl. auto.
    + rewrite (handleAnswer_None _ _ Hq'). rewrite Hq'. auto.
  - unfold handleContinue. destruct (isGameFinished _ _); simpl; auto.
  - auto.
Qed.

Lemma step_nonnegPoints st e :
  inSession e = true → nonnegPoints st → nonnegPoints (step st e).
Proof.
  intros He Hst q [Hq|Hq].
  - rewrite step_sessionQuestions in Hq by done. apply Hst. by left.
  - apply step_currentQuestion in Hq as [?|?]; [| |done]; apply Hst; auto.
Qed.

Lemma run_nonnegPoints st evs :
  forallb inSession evs = true → nonnegPoints st → nonnegPoints (run st evs).
Proof.
  revert st. induction evs as [|e evs IH]; intros st Hevs Hst; [done|].
  apply andb_true_iff in Hevs as [He Hevs].
  apply (IH (step st e)); [done|]. by apply step_nonnegPoints.
Qed.

Lemma answeredCorrectly_nonneg st evs q :
  forallb inSession evs = true → nonnegPoints st →
  q ∈ answeredCorrectly st evs → 0 <= puntuacion q.
Proof.
  revert st. induction evs as [|e evs IH]; intros st Hevs Hst Hq.
  - by apply elem_of_nil in Hq.
  - apply andb_true_iff in Hevs as [He Hevs].
    cbn [answeredCorrectly] in Hq. apply elem_of_app in Hq as [Hq|Hq].
    + destruct e as [?|?|answer| |]; try by apply elem_of_nil in Hq.
      destruct (currentQuestion st) as [q'|] eqn:Hq';
        [|by apply elem_of_nil in Hq].
      destruct (String.eqb answer (respuesta_correcta q'));
        [|by apply elem_of_nil in Hq].
      apply list_elem_of_singleton in Hq as ->. apply Hst. by right.
    + apply (IH (step st e)); [done| |done]. by apply step_nonnegPoints.
Qed.

(** [C2], as amended.  For a play of a running session (no new
    [StartGame]) from any state, along which the scores and the point values
    added are safe integers: the final score is the initial score plus the
    point values of the questions answered correctly, one term for every
    correct submission (a question submitted correctly twice counts twice);
    every single step within the safe integers leaves the score as it is or
    is a [SubmitAnswer] whose text is the correct answer of the current
    question, and then adds exactly that question's point value; and when no
    question of the session has a negative point value, the score after a
    prefix of the play is at most the score after the whole play: it never
    decreases. *)
Theorem score_sums_correct_submissions (st : State) (evs1 evs2 : list Event) :
  forallb inSession (evs1 ++ evs2) = true →
  safePlay st (evs1 ++ evs2) = true →
  score (run st (evs1 ++ evs2))
  = score st + points (answeredCorrectly st (evs1 ++ evs2))
  ∧ (∀ st' e, inSession e = true → safePlay st' [e] = true →
       score (step st' e) = score st'
       ∨ ∃ answer q,
           e = SubmitAnswer answer ∧ currentQuestion st' = Some q
           ∧ answer = respuesta_correcta q
           ∧ score (step st' e) = score st' + puntuacion q)
  ∧ (nonnegPoints st → score (run st evs1) <= score (run st (evs1 ++ evs2))).
Proof.
  intros Hevs Hsafe. split; [|split].
  - by apply run_score.
  - intros st' e He Hsafe'. rewrite (step_score st' e He).
    destruct e as [?|?|answer| |]; simpl; try (left; lia).
    destruct (currentQuestion st') as [q|]; [|left; simpl; lia].
    destruct (String.eqb_spec answer (respuesta_correcta q)) as [Heq|Hne];
      [|left; simpl; lia].
    right. exists answer, q. simpl. repeat split; [done | lia].
  - intros Hst. rewrite forallb_app in Hevs.
    apply andb_true_iff in Hevs as [Hevs1 Hevs2].
    rewrite run_app, (run_score (run st evs1) evs2) by done.
    assert (0 <= points (answeredCorrectly (run st evs1) evs2)); [|lia].
    apply points_nonneg. intros q.
    apply answeredCorrectly_nonneg; [done|]. by apply run_nonnegPoints.
Qed.

(** *** The used set *)

Lemma presentedBy_fresh random T st q :
  presentedBy random T st = Some q →
  (id q ∉ usedQuestionIds st) ∧ q ∈ sessionQuestions st ∧ nivel q = T.
Proof.
  intros [_ Hq]%presentedBy_Some.
  apply elem_of_unusedOfTier in Hq. tauto.
Qed.

Lemma step_used st e :
  inSession e = true →
  usedQuestionIds (step st e)
  = usedQuestionIds st ∪ list_to_set (map id (presented st [e])).
Proof.
  intros He. destruct e as [?|random T|answer| |]; simpl in He |- *.
  - discriminate.
  - rewrite handleSelectDifficulty_presentedBy.
    destruct (presentedBy random T st); simpl; set_solver.
  - destruct (currentQuestion st) as [q|] eqn:Hq.
    + rewrite (handleAnswer_Some _ _ _ Hq). simpl. set_solver.
    + rewrite (handleAnswer_None _ _ Hq). set_solver.
  - unfold handleContinue. destruct (isGameFinished _ _); simpl; set_solver.
  - set_solver.
Qed.

Lemma presented_app st evs1 evs2 :
  presented st (evs1 ++ evs2)
  = presented st evs1 ++ presented (run st evs1) evs2.
Proof.
  revert st. induction evs1 as [|e evs1 IH]; intros st; [done|].
  simpl. by rewrite IH, app_assoc.
Qed.

Lemma run_used st evs :
  forallb inSession evs = true →
  usedQuestionIds (run st evs)
  = usedQuestionIds st ∪ list_to_set (map id (presented st evs)).
Proof.
  revert st. induction evs as [|e evs IH]; intros st Hevs.
  - simpl. set_solver.
  - apply andb_true_iff in Hevs as [He Hevs].
    change (run st (e :: evs)) with (run (step st e) evs).
    rewrite IH, step_used by done.
    change (e :: evs) with ([e] ++ evs). rewrite (presented_app st [e] evs).
    rewrite map_app, list_to_set_app_L. set_solver.
Qed.

Lemma presented_fresh st evs q :
  forallb inSession evs = true →
  q ∈ presented st evs → id q ∉ usedQuestionIds st.
Proof.
  revert st. induction evs as [|e evs IH]; intros st Hevs Hq.
  - by apply elem_of_nil in Hq.
  - apply andb_true_iff in Hevs as [He Hevs].
    cbn [presented] in Hq. apply elem_of_app in Hq as [Hq|Hq].
    + destruct e as [?|random T|?| |]; try by apply elem_of_nil in Hq.
      destruct (presentedBy random T st) as [q'|] eqn:Hq';
        [|by apply elem_of_nil in Hq].
      apply list_elem_of_singleton in Hq as ->.
      by apply presentedBy_fresh in Hq' as [? _].
    + apply (IH (step st e)) in Hq; [|done].
      rewrite step_used in Hq by done. set_solver.
Qed.

Lemma presented_NoDup st evs :
  forallb inSession evs = true → NoDup (map id (presented st evs)).
Proof.
  revert st. induction evs as [|e evs IH]; intros st Hevs.
  - constructor.
  - apply andb_true_iff in Hevs as [He Hevs].
    cbn [presented]. rewrite map_app. apply list.NoDup_app. split; [|split].
    + destruct e as [?|random T|?| |]; try constructor.
      destruct (presentedBy random T st); simpl; [apply NoDup_singleton|];
        constructor.
    + intros i Hi Hi'.
      apply list_elem_of_fmap in Hi' as (q' & -> & Hq').
      apply presented_fresh in Hq'; [|done]. apply Hq'.
      rewrite step_used by done. set_solver.
    + by apply IH.
Qed.

(** [C6].  For a play of a running session (no new [StartGame]) from any
    state, cut anywhere in two parts, with [st1] the state after the first
    part and [st2] the state after both: in [st1] a [handleSelectDifficulty]
    either changes nothing or makes current a session question whose
    identifier is not in the used set of [st1]; no question presented by the
    second part has its identifier in the used set of [st1]; the identifiers
    of the questions presented by the whole play are pairwise distinct; the
    used set of [st1] is included in that of [st2]; and the used set of
    [st2] is the initial one plus the identifiers presented. *)
Theorem used_never_presented_again (st : State) (evs1 evs2 : list Event) :
  forallb inSession (evs1 ++ evs2) = true →
  let st1 := run st evs1 in
  let st2 := run st (evs1 ++ evs2) in
  (∀ random T,
     handleSelectDifficulty random T st1 = st1
     ∨ ∃ q, currentQuestion (handleSelectDifficulty random T st1) = Some q
            ∧ (id q ∉ usedQuestionIds st1) ∧ q ∈ sessionQuestions st1)
  ∧ (∀ q, q ∈ presented st1 evs2 → id q ∉ usedQuestionIds st1)
  ∧ NoDup (map id (presented st (evs1 ++ evs2)))
  ∧ usedQuestionIds st1 ⊆ usedQuestionIds st2
  ∧ usedQuestionIds st2
    = usedQuestionIds st ∪ list_to_set (map id (presented st (evs1 ++ evs2))).
Proof.
  intros Hevs st1 st2. pose proof Hevs as Hevs'.
  rewrite forallb_app in Hevs'.
  apply andb_true_iff in Hevs' as [Hevs1 Hevs2].
  split; [|split; [|split; [|split]]].
  - intros random T. rewrite handleSelectDifficulty_presentedBy.
    destruct (presentedBy random T st1) as [q|] eqn:Hq; [|by left].
    right. exists q. apply presentedBy_fresh in Hq. simpl. tauto.
  - intros q. by apply presented_fresh.
  - by apply presented_NoDup.
  - unfold st2. rewrite run_app, (run_used (run st evs1) evs2) by done.
    set_solver.
  - by apply run_used.
Qed.

(** *** The end of a session *)

Lemma handleStartGame_usedWithinSession shuffle st :
  usedWithinSession (handleStartGame shuffle st).
Proof. unfold usedWithinSession. simpl. set_solver. Qed.

Lemma run_usedWithinSession st evs :
  forallb inSession evs = true →
  usedWithinSession st → usedWithinSession (run st evs).
Proof.
  revert st. induction evs as [|e evs IH]; intros st Hevs Hst; [done|].
  apply andb_true_iff in Hevs as [He Hevs].
  apply (IH (step st e)); [done|]. unfold usedWithinSession in *.
  rewrite step_used, step_sessionQuestions by done.
  destruct e as [?|random T|?| |]; simpl; try set_solver.
  destruct (presentedBy random T st) as [q|] eqn:Hq; simpl; [|set_solver].
  apply presentedBy_fresh in Hq as (_ & Hq & _).
  assert (id q ∈ (list_to_set (map id (sessionQuestions st)) : gset Z)).
  { apply elem_of_list_to_set, list_elem_of_fmap. by exists q. }
  set_solver.
Qed.

Lemma size_list_to_set_le (l : list Z) :
  (size (list_to_set l : gset Z) ≤ length l)%nat.
Proof.
  induction l as [|x l IH].
  - by rewrite list_to_set_nil, size_empty.
  - rewrite list_to_set_cons, length_cons.
    etrans; [by rewrite size_union_alt|]. rewrite size_singleton.
    assert (size ((list_to_set l : gset Z) ∖ {[x]}) ≤ size (list_to_set l : gset Z))%nat.
    { apply subseteq_size. set_solver. }
    lia.
Qed.

Lemma usedWithinSession_size st :
  usedWithinSession st →
  (size (usedQuestionIds st) ≤ length (sessionQuestions st))%nat.
Proof.
  intros Hst. etrans; [by apply subseteq_size|].
  etrans; [apply size_list_to_set_le|]. by rewrite length_map.
Qed.

(** [C1], as amended.  [isGameFinished] is true exactly when the session is
    not empty and the used set has at least as many identifiers as the
    session has questions; on the empty session it is false whatever the
    used set.  Hence, when the used set is no larger than the session,
    [isGameFinished] is true exactly when the session is not empty and the
    two sizes are equal; and that is the case in every state reached from a
    [handleStartGame] by a play of the running session. *)
Theorem isGameFinished_iff (S : list TriviaQuestion) (U : gset Z) :
  (isGameFinished S U = true ↔ S ≠ [] ∧ (length S ≤ size U)%nat)
  ∧ isGameFinished [] U = false
  ∧ ((size U ≤ length S)%nat →
     (isGameFinished S U = true ↔ S ≠ [] ∧ size U = length S))
  ∧ (∀ shuffle st evs,
       forallb inSession evs = true →
       let st' := run (handleStartGame shuffle st) evs in
       isGameFinished (sessionQuestions st') (usedQuestionIds st') = true
       ↔ sessionQuestions st' ≠ []
         ∧ size (usedQuestionIds st') = length (sessionQuestions st')).
Proof.
  assert (Hiff : ∀ S U, isGameFinished S U = true
                        ↔ S ≠ [] ∧ (length S ≤ size U)%nat).
  { clear. intros S U. unfold isGameFinished. case_bool_decide as Hlen.
    - apply length_zero_iff_nil in Hlen. split; [done | tauto].
    - rewrite bool_decide_eq_true. split; [|tauto].
      intros ?. split; [|done]. intros ->. by apply Hlen. }
  split; [apply Hiff | split; [done | split]].
  - intros Hle. rewrite Hiff. split; intros [? ?]; (split; [done | lia]).
  - intros shuffle st evs Hevs st'. rewrite Hiff.
    assert (size (usedQuestionIds st') ≤ length (sessionQuestions st'))%nat.
    { apply usedWithinSession_size, run_usedWithinSession; [done|].
      apply handleStartGame_usedWithinSession. }
    split; intros [? ?]; (split; [done | lia]).
Qed.

(** *** The handlers, one by one *)

(** [C7].  [handleStartGame] from any state: the score is 0, the used set
    is empty, there is no current question, no submitted answer and no
    feedback, the session is [selectSessionQuestions] of the bank, and the
    phase is [ChoosingDifficulty]; the bank is as before. *)
Theorem handleStartGame_resets (shuffle : Shuffle) (st : State) :
  handleStartGame shuffle st
  = mkState ChoosingDifficulty (allQuestions st)
      (selectSessionQuestions shuffle (allQuestions st)) ∅ None 0 None None.
Proof. reflexivity. Qed.

(** [C8].  [handleAnswer] in a state with a current question [q] and with a
    text that is not the correct answer of [q]: the score is as before, the
    feedback says incorrect and carries the correct answer and the
    explanation of [q], the text is stored as the submitted answer, and the
    phase is [Answered]; the current question, the used set and the session
    are as before. *)
Theorem handleAnswer_wrong (answer : string) (st : State) (q : TriviaQuestion) :
  currentQuestion st = Some q → answer ≠ respuesta_correcta q →
  let st' := handleAnswer answer st in
  score st' = score st
  ∧ feedback st'
    = Some (mkFeedback false (respuesta_correcta q) (explicación q))
  ∧ selectedAnswer st' = Some answer
  ∧ gameState st' = Answered
  ∧ currentQuestion st' = Some q
  ∧ usedQuestionIds st' = usedQuestionIds st
  ∧ sessionQuestions st' = sessionQuestions st.
Proof.
  intros Hq Hne st'. unfold st'. rewrite (handleAnswer_Some _ _ _ Hq).
  apply String.eqb_neq in Hne. rewrite Hne. simpl. done.
Qed.

(** [C9].  [handleEndGame] from any state, whatever the number of
    questions used: the phase is [GameOver], and the bank, the session, the
    used set, the current question, the score, the submitted answer and the
    feedback are as before. *)
Theorem handleEndGame_frame (st : State) :
  handleEndGame st
  = mkState GameOver (allQuestions st) (sessionQuestions st)
      (usedQuestionIds st) (currentQuestion st) (score st)
      (selectedAnswer st) (feedback st).
Proof. reflexivity. Qed.

(** [C10].  [handleAnswer] looks at the current question only, not at the
    phase: in any state with a current question [q] it stores the text,
    compares it with the correct answer of [q], writes the feedback and sets
    the phase to [Answered], leaving [q] current and, when the text is not
    the correct answer, the score as it was.  When the text is the correct
    answer it adds the point value of [q] to the score; the state is then in
    the phase [Answered] with [q] still current, and the same correct answer
    submitted again adds the point value of [q] a second time.  The two sums
    are stated for scores and a point value that are safe integers, where
    the additions of the code are exact. *)
Theorem handleAnswer_any_phase (answer : string) (st : State)
    (q : TriviaQuestion) :
  currentQuestion st = Some q →
  let isCorrect := String.eqb answer (respuesta_correcta q) in
  let st' := handleAnswer answer st in
  (gameState st' = Answered
   ∧ allQuestions st' = allQuestions st
   ∧ sessionQuestions st' = sessionQuestions st
   ∧ usedQuestionIds st' = usedQuestionIds st
   ∧ currentQuestion st' = Some q
   ∧ selectedAnswer st' = Some answer
   ∧ feedback st'
     = Some (mkFeedback isCorrect (respuesta_correcta q) (explicación q))
   ∧ (isCorrect = false → score st' = score st))
  ∧ (answer = respuesta_correcta q →
     isSafeInteger (score st) = true →
     isSafeInteger (puntuacion q) = true →
     isSafeInteger (score st + puntuacion q) = true →
     score st' = score st + puntuacion q
     ∧ (isSafeInteger (score st + puntuacion q + puntuacion q) = true →
        score (handleAnswer answer st')
        = score st + puntuacion q + puntuacion q)).
Proof.
  intros Hq isCorrect st'.
  assert (Hst' : st' = mkState Answered (allQuestions st) (sessionQuestions st)
            (usedQuestionIds st) (Some q)
            (if isCorrect then score st + puntuacion q else score st)
            (Some answer)
            (Some (mkFeedback isCorrect (respuesta_correcta q)
                     (explicación q)))).
  { by apply handleAnswer_Some. }
  split.
  - rewrite Hst'. simpl. repeat split. by intros ->.
  - intros Heq Hscore Hvalue Hsum.
    assert (HisCorrect : isCorrect = true) by (by apply String.eqb_eq).
    split.
    + by rewrite Hst', HisCorrect.
    + intros Hsum'.
      rewrite (handleAnswer_Some answer st' q) by (by rewrite Hst').
      fold isCorrect. by rewrite Hst', HisCorrect.
Qed.

(** *** The component's history *)

Lemma initialState_coherent : coherent initialState.
Proof.
  unfold coherent, usedWithinSession. simpl.
  split; [set_solver|]. repeat split; try done.
Qed.

Lemma handleSelectDifficulty_coherent random T st :
  coherent st → coherent (handleSelectDifficulty random T st).
Proof.
  intros Hst. rewrite handleSelectDifficulty_presentedBy.
  destruct (presentedBy random T st) as [q|] eqn:Hq; [|done].
  apply presentedBy_fresh in Hq as (_ & Hq & _).
  destruct Hst as (Hused & _).
  unfold coherent, usedWithinSession in *. simpl.
  assert (id q ∈ (list_to_set (map id (sessionQuestions st)) : gset Z)).
  { apply elem_of_list_to_set, list_elem_of_fmap. by exists q. }
  split; [set_solver|]. split; [|by eauto].
  intros q' [= <-]. split; [done | set_solver].
Qed.

Lemma handleAnswer_coherent answer st :
  coherent st → coherent (handleAnswer answer st).
Proof.
  intros Hst. destruct (currentQuestion st) as [q|] eqn:Hq.
  - rewrite (handleAnswer_Some _ _ _ Hq).
    destruct Hst as (Hused & Hcur & _).
    unfold coherent, usedWithinSession in *. simpl.
    split; [done|]. split; [by rewrite <- Hq|].
    split; [|by eauto]. intros f [= <-]. by exists q, answer.
  - by rewrite (handleAnswer_None _ _ Hq).
Qed.

Lemma setGameState_coherent phase st :
  phase = ChoosingDifficulty ∨ phase = GameOver →
  coherent st → coherent (setGameState phase st).
Proof.
  intros Hphase (Hused & Hcur & Hfb & Hans & _).
  unfold coherent, usedWithinSession in *. simpl.
  repeat (split; [done|]). by destruct Hphase as [-> | ->].
Qed.

Lemma act_coherent st a : coherent st → coherent (act st a).
Proof.
  intros Hst. destruct a as [[shuffle|random T|answer| |]|[questions|]]; simpl.
  - unfold coherent, usedWithinSession. simpl.
    split; [set_solver|]. repeat split; done.
  - by apply handleSelectDifficulty_coherent.
  - by apply handleAnswer_coherent.
  - unfold handleContinue.
    destruct (isGameFinished _ _); apply setGameState_coherent; auto.
  - apply setGameState_coherent; auto.
  - exact Hst.
  - exact Hst.
Qed.

Lemma runActions_coherent st actions :
  coherent st → coherent (runActions st actions).
Proof.
  revert st. induction actions as [|a actions IH]; intros st Hst; [done|].
  apply (IH (act st a)). by apply act_coherent.
Qed.

(** *** Counts *)

Lemma availableCounts_lookup (S : list TriviaQuestion) (U : gset Z)
    (T : Difficulty) :
  availableCounts S U !! T
  = if decide (T ∈ DIFFICULTIES) then Some (length (unusedOfTier T S U))
    else None.
Proof.
  unfold availableCounts. rewrite lookup_fmap, available_lookup.
  by case_decide.
Qed.

Lemma presentedBy_Some_iff_nonempty random T st :
  is_Some (presentedBy random T st)
  ↔ T ∈ DIFFICULTIES
    ∧ unusedOfTier T (sessionQuestions st) (usedQuestionIds st) ≠ [].
Proof.
  split.
  - intros [q Hq]. apply presentedBy_Some in Hq as [? Hq].
    split; [done|]. intros Hnil. rewrite Hnil in Hq.
    by apply elem_of_nil in Hq.
  - intros [? ?]. by apply presentedBy_is_Some.
Qed.

Lemma handleSelectDifficulty_changes random T st :
  handleSelectDifficulty random T st ≠ st
  ↔ is_Some (presentedBy random T st).
Proof.
  rewrite handleSelectDifficulty_presentedBy.
  destruct (presentedBy random T st) as [q|] eqn:Hq.
  - split; [by eauto|]. intros _ Heq.
    apply presentedBy_fresh in Hq as (Hfresh & _).
    apply Hfresh. apply (f_equal usedQuestionIds) in Heq. simpl in Heq.
    rewrite <- Heq. set_solver.
  - split; [done|]. by intros [? ?].
Qed.

(** [X6].  A tier can be selected exactly when the count the selector is
    given for it is positive: [handleSelectDifficulty] changes the state if
    and only if [availableCounts] has a non-zero entry for the tier. A
    missing entry (a tier that [DIFFICULTIES] does not list) and a zero
    entry both leave the state as it is. *)
Theorem selectable_iff_count_positive (random : Random) (T : Difficulty)
    (st : State) :
  handleSelectDifficulty random T st ≠ st
  ↔ ∃ n, availableCounts (sessionQuestions st) (usedQuestionIds st) !! T
         = Some (S n).
Proof.
  rewrite handleSelectDifficulty_changes, presentedBy_Some_iff_nonempty.
  rewrite availableCounts_lookup. case_decide as Hin.
  - split.
    + intros [_ Hne]. destruct (unusedOfTier _ _ _) as [|q l]; [done|].
      by exists (length l).
    + intros [n [= Hlen]]. split; [done|]. intros Hnil.
      by rewrite Hnil in Hlen.
  - split; [tauto | by intros [? ?]].
Qed.

(** [X5].  The counts add up: for a [DIFFICULTIES] that lists every tier
    once, the counts of all tiers and the number of session questions whose
    identifier is used make the length of the session. The entry of a tier
    is the number of its unused session questions; a tier that is not listed
    has no entry. *)
Theorem availableCounts_add_up (S : list TriviaQuestion) (U : gset Z) :
  NoDup DIFFICULTIES → (∀ d, d ∈ DIFFICULTIES) →
  (∀ T, availableCounts S U !! T
        = Some (length (filter (λ q, nivel q = T ∧ id q ∉ U) S)))
  ∧ (sum_list (map (λ T, default 0%nat (availableCounts S U !! T))
                   DIFFICULTIES)
     + length (filter (λ q, id q ∈ U) S)
     = length S)%nat.
Proof.
  intros Hnd Hall. split.
  - intros T. rewrite availableCounts_lookup, decide_True by done.
    by rewrite filter_tier_unused.
  - assert (map (λ T, default 0%nat (availableCounts S U !! T)) DIFFICULTIES
            = map length
                (map (λ T, filter (λ q, nivel q = T)
                             (filter (λ q, id q ∉ U) S)) DIFFICULTIES)) as ->.
    { rewrite map_map. apply map_ext. intros T.
      rewrite availableCounts_lookup, decide_True by done. simpl.
      unfold unusedOfTier. rewrite !list_filter_filter.
      f_equal. apply list_filter_iff. tauto. }
    rewrite <- length_concat, concat_tiers_perm by done.
    rewrite <- (length_app (filter _ S)).
    rewrite <- (filter_app_complement (λ q, id q ∉ U) S) at 3.
    rewrite !length_app. f_equal. f_equal.
    apply list_filter_iff. intros q. split; [tauto | apply dec_stable].
Qed.

Lemma length_filter_other_ids (q : TriviaQuestion) (l : list TriviaQuestion) :
  NoDup (map id l) → q ∈ l →
  (length (filter (λ x, id x ≠ id q) l) + 1 = length l)%nat.
Proof.
  induction l as [|x l IH]; intros Hnd Hq.
  - by apply elem_of_nil in Hq.
  - simpl in Hnd. pose proof (NoDup_cons_1_1 _ _ Hnd) as Hx.
    apply NoDup_cons_1_2 in Hnd.
    apply elem_of_cons in Hq as [->|Hq].
    + rewrite filter_cons_False by (intros Hne; by apply Hne).
      rewrite filter_keeps_all; [simpl; lia|].
      intros y Hy Heq. apply Hx. rewrite <- Heq.
      apply list_elem_of_fmap. by exists y.
    + rewrite filter_cons_True.
      * simpl. rewrite <- (IH Hnd Hq). lia.
      * intros Heq. apply Hx. rewrite Heq.
        apply list_elem_of_fmap. by exists q.
Qed.

Lemma NoDup_map_id_filter (P : TriviaQuestion → Prop)
    `{!∀ x, Decision (P x)} (l : list TriviaQuestion) :
  NoDup (map id l) → NoDup (map id (filter P l)).
Proof.
  intros Hnd. eapply sublist_NoDup; [exact Hnd|].
  apply (fmap_sublist id), sublist_filter.
Qed.

Lemma same_id_same_question (l : list TriviaQuestion) (x y : TriviaQuestion) :
  NoDup (map id l) → x ∈ l → y ∈ l → id x = id y → x = y.
Proof.
  induction l as [|z l IH]; intros Hnd Hx Hy Heq.
  - by apply elem_of_nil in Hx.
  - simpl in Hnd. pose proof (NoDup_cons_1_1 _ _ Hnd) as Hz.
    apply NoDup_cons_1_2 in Hnd.
    apply elem_of_cons in Hx as [->|Hx]; apply elem_of_cons in Hy as [->|Hy].
    + done.
    + exfalso. apply Hz. rewrite Heq. apply list_elem_of_fmap. by exists y.
    + exfalso. apply Hz. rewrite <- Heq. apply list_elem_of_fmap. by exists x.
    + by apply IH.
Qed.

(** [X7].  Presenting a question takes exactly one off the count of its tier
    and leaves the counts of the other tiers alone, when the identifiers of
    the session are pairwise distinct. *)
Theorem select_decrements_count (random : Random) (T : Difficulty)
    (st : State) :
  NoDup (map id (sessionQuestions st)) →
  handleSelectDifficulty random T st ≠ st →
  let st' := handleSelectDifficulty random T st in
  ∀ T', availableCounts (sessionQuestions st') (usedQuestionIds st') !! T'
        = if decide (T' = T)
          then Nat.pred <$>
                 availableCounts (sessionQuestions st) (usedQuestionIds st) !! T'
          else availableCounts (sessionQuestions st) (usedQuestionIds st) !! T'.
Proof.
  intros Hnd Hchg st' T'. unfold st'.
  apply handleSelectDifficulty_changes in Hchg as [q Hq].
  rewrite handleSelectDifficulty_presentedBy, Hq. simpl.
  pose proof (presentedBy_Some _ _ _ _ Hq) as [HT Hq'].
  apply presentedBy_fresh in Hq as (Hfresh & HqS & Htier).
  rewrite !availableCounts_lookup.
  assert (Hsplit : unusedOfTier T' (sessionQuestions st)
                     (usedQuestionIds st ∪ {[id q]})
                   = filter (λ x, id x ≠ id q)
                       (unusedOfTier T' (sessionQuestions st)
                          (usedQuestionIds st))).
  { unfold unusedOfTier. rewrite (list_filter_filter (λ x, id x ≠ id q)).
    apply list_filter_iff. intros x. set_solver. }
  rewrite Hsplit. clear Hsplit.
  destruct (decide (T' ∈ DIFFICULTIES)) as [HT'|HT'].
  - destruct (decide (T' = T)) as [->|Hne]; simpl; f_equal.
    + pose proof (length_filter_other_ids q
                    (unusedOfTier T (sessionQuestions st) (usedQuestionIds st)))
        as Hlen.
      unfold unusedOfTier in Hlen at 1.
      specialize (Hlen ltac:(by do 2 apply NoDup_map_id_filter) Hq'). lia.
    + f_equal. apply filter_keeps_all. intros x Hx Heq.
      apply elem_of_unusedOfTier in Hx as (HxS & Hxtier & _).
      assert (x = q); [|congruence].
      by apply (same_id_same_question (sessionQuestions st)).
  - by case_decide.
Qed.

(** *** More on session selection *)

Lemma length_selectedOfTier shuffle B T :
  (∀ l, shuffle l ≡ₚ l) →
  length (selectedOfTier shuffle B T)
  = (10 `min` length (filter (λ q, nivel q = T) B))%nat.
Proof.
  intros Hperm. unfold selectedOfTier, QUESTIONS_PER_DIFFICULTY.
  by rewrite length_take, Hperm.
Qed.

(** [X1].  The size of a session: over the tiers of [DIFFICULTIES], the sum
    of the number of bank questions of the tier, capped at 10. So a session
    has at most 10 questions per listed tier, and fewer when the bank has
    fewer. *)
Theorem selectSessionQuestions_length (shuffle : Shuffle)
    (B : list TriviaQuestion) :
  (∀ l, shuffle l ≡ₚ l) →
  length (selectSessionQuestions shuffle B)
  = sum_list (map (λ T, 10 `min` length (filter (λ q, nivel q = T) B))%nat
                  DIFFICULTIES)
  ∧ (length (selectSessionQuestions shuffle B) ≤ 10 * length DIFFICULTIES)%nat.
Proof.
  intros Hperm. rewrite selectSessionQuestions_groups by done.
  rewrite length_concat, map_map.
  assert (Hmap : map (λ T, length (selectedOfTier shuffle B T)) DIFFICULTIES
                 = map (λ T, 10 `min` length (filter (λ q, nivel q = T) B))%nat
                       DIFFICULTIES).
  { apply map_ext. intros T. by apply length_selectedOfTier. }
  rewrite Hmap. split; [done|]. clear Hmap.
  induction DIFFICULTIES as [|d ds IH]; [done|].
  cbn [map length].
  match goal with
  | |- context [list_sum (?a :: ?l)] =>
      change (list_sum (a :: l)) with (a + list_sum l)%nat
  end.
  pose proof (Nat.le_min_l 10 (length (filter (λ q, nivel q = d) B))).
  lia.
Qed.

Lemma concat_tiers_submseteq (l : list TriviaQuestion) (ds : list Difficulty) :
  NoDup ds → concat (map (λ T, filter (λ q, nivel q = T) l) ds) ⊆+ l.
Proof.
  intros Hnd. induction l as [|q l IH].
  - clear Hnd. by induction ds as [|d ds IHds].
  - destruct (decide (nivel q ∈ ds)) as [Hin|Hin].
    + rewrite concat_tiers_cons by done. by apply submseteq_skip.
    + rewrite concat_tiers_skip by done. by apply submseteq_cons.
Qed.

Lemma concat_map_submseteq {A B : Type} (f g : B → list A) (ds : list B) :
  (∀ d, f d ⊆+ g d) → concat (map f ds) ⊆+ concat (map g ds).
Proof.
  intros Hfg. induction ds as [|d ds IH]; [done|]. simpl.
  by apply submseteq_app.
Qed.

Lemma selectedOfTier_submseteq shuffle B T :
  (∀ l, shuffle l ≡ₚ l) →
  selectedOfTier shuffle B T ⊆+ filter (λ q, nivel q = T) B.
Proof.
  intros Hperm. unfold selectedOfTier.
  etrans; [apply submseteq_take|]. by rewrite Hperm.
Qed.

Lemma submseteq_NoDup {A : Type} (k l : list A) :
  k ⊆+ l → NoDup l → NoDup k.
Proof.
  intros Hsub Hnd. apply submseteq_Permutation in Hsub as [k' Hk'].
  rewrite Hk' in Hnd. by apply list.NoDup_app in Hnd as [? _].
Qed.

(** [X2].  A session never holds a bank question more often than the bank
    does: it is a sub-multiset of the bank. So when the identifiers of the
    bank are pairwise distinct, those of the session are too. *)
Theorem selectSessionQuestions_no_repeats (shuffle : Shuffle)
    (B : list TriviaQuestion) :
  NoDup DIFFICULTIES → (∀ l, shuffle l ≡ₚ l) →
  selectSessionQuestions shuffle B ⊆+ B
  ∧ (NoDup (map id B) → NoDup (map id (selectSessionQuestions shuffle B))).
Proof.
  intros Hnd Hperm.
  assert (Hsub : selectSessionQuestions shuffle B ⊆+ B).
  { rewrite selectSessionQuestions_groups by done.
    etrans; [|by apply concat_tiers_submseteq].
    apply concat_map_submseteq. intros T. by apply selectedOfTier_submseteq. }
  split; [done|]. intros HndB.
  eapply submseteq_NoDup; [|exact HndB]. by apply (fmap_submseteq id).
Qed.

Lemma concat_map_Permutation {A B : Type} (f g : B → list A) (ds : list B) :
  (∀ d, f d ≡ₚ g d) → concat (map f ds) ≡ₚ concat (map g ds).
Proof.
  intros Hfg. induction ds as [|d ds IH]; [done|]. simpl.
  by rewrite Hfg, IH.
Qed.

(** [X3].  A bank with at most 10 questions of every tier is taken whole:
    the session is a rearrangement of the bank, when [DIFFICULTIES] lists
    every tier once. *)
Theorem small_bank_taken_whole (shuffle : Shuffle) (B : list TriviaQuestion) :
  NoDup DIFFICULTIES → (∀ d, d ∈ DIFFICULTIES) → (∀ l, shuffle l ≡ₚ l) →
  (∀ T, (length (filter (λ q, nivel q = T) B) ≤ 10)%nat) →
  selectSessionQuestions shuffle B ≡ₚ B.
Proof.
  intros Hnd Hall Hperm Hsmall.
  rewrite selectSessionQuestions_groups by done.
  etrans; [|by apply concat_tiers_perm].
  apply concat_map_Permutation. intros T. unfold selectedOfTier.
  rewrite take_ge; [done|].
  rewrite Hperm. apply Hsmall.
Qed.

(** [X4].  Right after [handleStartGame] the count of a listed tier is the
    number of bank questions of that tier, capped at 10. *)
Theorem counts_after_start (shuffle : Shuffle) (st : State) (T : Difficulty) :
  NoDup DIFFICULTIES → (∀ l, shuffle l ≡ₚ l) → T ∈ DIFFICULTIES →
  let st' := handleStartGame shuffle st in
  availableCounts (sessionQuestions st') (usedQuestionIds st') !! T
  = Some (10 `min` length (filter (λ q, nivel q = T) (allQuestions st)))%nat.
Proof.
  intros Hnd Hperm HT st'. rewrite availableCounts_lookup, decide_True by done.
  f_equal. unfold st'. simpl. unfold unusedOfTier.
  rewrite (filter_keeps_all (λ q, id q ∉ (∅ : gset Z))) by set_solver.
  rewrite selectSessionQuestions_groups, filter_tier_groups by done.
  rewrite decide_True by done. by apply length_selectedOfTier.
Qed.

Lemma run_allQuestions st evs : allQuestions (run st evs) = allQuestions st.
Proof.
  revert st. induction evs as [|e evs IH]; intros st; [done|].
  change (run st (e :: evs)) with (run (step st e) evs). rewrite IH.
  destruct e as [shuffle|random T|answer| |]; simpl.
  - done.
  - rewrite handleSelectDifficulty_presentedBy.
    by destruct (presentedBy random T st).
  - unfold handleAnswer. destruct (currentQuestion st) as [q|]; [|done].
    by destruct (String.eqb answer (respuesta_correcta q)).
  - unfold handleContinue. by destruct (isGameFinished _ _).
  - done.
Qed.

(** [X8].  A new game owes nothing to the play before it: whatever the
    events since, [handleStartGame] yields the state it would have yielded
    at once. *)
Theorem restart_forgets_play (shuffle : Shuffle) (st : State)
    (events : list Event) :
  handleStartGame shuffle (run st events) = handleStartGame shuffle st.
Proof.
  unfold handleStartGame, setGameState, setSessionQuestions, setFeedback,
    setSelectedAnswer, setCurrentQuestion, setUsedQuestionIds,
    updUsedQuestionIds, setScore, updScore.
  simpl. by rewrite run_allQuestions.
Qed.

(** *** What holds all along the component's history *)

Lemma history_feedback_aux (actions : list Action) :
  let st := runActions initialState actions in
  (∀ q, currentQuestion st = Some q → q ∈ sessionQuestions st)
  ∧ (gameState st = Answered →
     is_Some (feedback st) ∧ ∃ q, currentQuestion st = Some q)
  ∧ (gameState st = Answering →
     is_Some (currentQuestion st) ∧ feedback st = None
     ∧ selectedAnswer st = None).
Proof.
  intros st.
  destruct (runActions_coherent initialState actions initialState_coherent)
    as (_ & Hcur & Hfb & Hans & Hphase).
  fold st in Hcur, Hfb, Hans, Hphase.
  split; [|split].
  - intros q Hq. by apply Hcur.
  - intros Heq. rewrite Heq in Hphase. split; [done|].
    destruct Hphase as [f Hf]. destruct (Hfb f Hf) as (q & _ & Hq & _).
    by exists q.
  - intros Heq. rewrite Heq in Hphase. destruct Hphase as [? Hnone]. auto.
Qed.

(** [X9].  Whatever the user events and settled loads since the component
    was mounted, the current question, when there is one, is a question of
    the session, its identifier is in the used set, and no entry of the
    availability map offers it again. *)
Theorem history_current_question (actions : list Action) (q : TriviaQuestion) :
  let st := runActions initialState actions in
  currentQuestion st = Some q →
  q ∈ sessionQuestions st
  ∧ id q ∈ usedQuestionIds st
  ∧ ∀ T l, availableQuestionsByDifficulty (sessionQuestions st)
             (usedQuestionIds st) !! T = Some l → q ∉ l.
Proof.
  intros st Hq.
  destruct (runActions_coherent initialState actions initialState_coherent)
    as (_ & Hcur & _).
  destruct (Hcur q Hq) as [HqS HqU]. split; [done | split; [done|]].
  intros T l. rewrite available_lookup. case_decide; [|done].
  intros [= <-] Hin. apply elem_of_unusedOfTier in Hin as (_ & _ & Hfresh).
  by apply Hfresh.
Qed.

(** [X10].  Whatever the history, a feedback is the verdict on the stored
    answer to the current question: there are a current question and a
    stored answer, and the feedback says whether they agree and carries the
    question's correct answer and explanation. In the phase [Answered] there
    is a feedback; in the phase [Answering] there are neither a feedback nor
    a stored answer, and there is a current question. *)
Theorem history_feedback (actions : list Action) :
  let st := runActions initialState actions in
  (∀ f, feedback st = Some f →
        ∃ q a, currentQuestion st = Some q ∧ selectedAnswer st = Some a
               ∧ f = mkFeedback (String.eqb a (respuesta_correcta q))
                       (respuesta_correcta q) (explicación q))
  ∧ (gameState st = Answered → is_Some (feedback st))
  ∧ (gameState st = Answering →
     is_Some (currentQuestion st) ∧ feedback st = None
     ∧ selectedAnswer st = None).
Proof.
  intros st.
  destruct (runActions_coherent initialState actions initialState_coherent)
    as (_ & _ & Hfb & Hans & Hphase).
  fold st in Hfb, Hans, Hphase.
  split; [exact Hfb | split].
  - intros Heq. by rewrite Heq in Hphase.
  - intros Heq. rewrite Heq in Hphase. destruct Hphase as [? Hnone].
    auto.
Qed.

(** [X11].  Whatever the history, the view of the phases [Answering] and
    [Answered] always has its question card (the guard on the current
    question never fails), the card shows a session question, and the result
    screen under it, when rendered, has a feedback to show; without a result
    screen the card shows neither an answer nor a feedback. *)
Theorem renderContent_history (actions : list Action)
    (card : option QuestionCardProps) (result : option ResultScreenProps) :
  let st := runActions initialState actions in
  renderContent st = QuestionView card result →
  (∃ q, q ∈ sessionQuestions st
        ∧ card = Some (mkQuestionCardProps q (selectedAnswer st) (feedback st)))
  ∧ (∀ r, result = Some r →
          is_Some (result_feedback r) ∧ result_isGameOver r = false
          ∧ result_score r = score st)
  ∧ (result = None → selectedAnswer st = None ∧ feedback st = None).
Proof.
  intros st Hview.
  destruct (history_feedback_aux actions) as (Hcur & Hanswered & Hanswering).
  fold st in Hcur, Hanswered, Hanswering.
  unfold renderContent in Hview.
  destruct (gameState st) eqn:Hphase; try discriminate Hview.
  - destruct (Hanswering eq_refl) as ([q Hq] & Hfb & Hans).
    rewrite Hq in Hview. rewrite bool_decide_eq_false_2 in Hview by done.
    injection Hview as <- <-.
    split; [|split; [done | done]].
    exists q. split; [|done]. by apply Hcur.
  - destruct (Hanswered eq_refl) as (Hfb & q & Hq).
    rewrite Hq in Hview. rewrite bool_decide_eq_true_2 in Hview by done.
    injection Hview as <- <-.
    split; [|split; [|done]].
    + exists q. split; [|done]. by apply Hcur.
    + by intros r [= <-].
Qed.

(** *** Without questions *)

Lemma presentedBy_no_session random T st :
  sessionQuestions st = [] → presentedBy random T st = None.
Proof.
  intros Hnil. apply presentedBy_None. unfold unusedOfTier. by rewrite Hnil.
Qed.

Lemma act_barren st a :
  bringsNothing a = true → barren st → barren (act st a).
Proof.
  intros Ha (Hbank & Hsession & Hused & Hcur & Hscore & Hans & Hfb & Hph1 & Hph2).
  destruct a as [[shuffle|random T|answer| |]|[[|q questions]|]];
    simpl in Ha |- *; try discriminate Ha.
  - unfold barren. simpl. unfold selectSessionQuestions. rewrite Hbank.
    simpl. repeat split; done.
  - rewrite handleSelectDifficulty_presentedBy.
    rewrite presentedBy_no_session by done. by repeat split.
  - rewrite handleAnswer_None by done. by repeat split.
  - unfold handleContinue, isGameFinished. rewrite Hsession. simpl.
    unfold barren. simpl. repeat split; done.
  - unfold barren. simpl. repeat split; done.
  - unfold barren. simpl. repeat split; done.
  - by repeat split.
Qed.

(** [X12].  When the load fails, or brings an empty bank, nothing can be
    played: whatever the user does, the session stays empty, no question is
    ever current, the score stays 0, the phases [Answering] and [Answered]
    are never entered, selecting any tier changes nothing, and the game
    never counts as finished. *)
Theorem nothing_to_play_without_questions (actions : list Action) :
  forallb bringsNothing actions = true →
  let st := runActions initialState actions in
  barren st
  ∧ (∀ random T, handleSelectDifficulty random T st = st)
  ∧ (∀ answer, handleAnswer answer st = st)
  ∧ isGameFinished (sessionQuestions st) (usedQuestionIds st) = false.
Proof.
  intros Hactions st.
  assert (Hbarren : barren st).
  { unfold st. clear st.
    assert (Hinit : barren initialState) by (by repeat split).
    revert Hinit Hactions. generalize initialState.
    induction actions as [|a actions IH]; intros st Hst Hactions; [done|].
    apply andb_true_iff in Hactions as [Ha Hactions].
    apply (IH (act st a)); [|done]. by apply act_barren. }
  split; [done|].
  destruct Hbarren as (_ & Hsession & _ & Hcur & _).
  split; [|split].
  - intros random T. rewrite handleSelectDifficulty_presentedBy.
    by rewrite presentedBy_no_session.
  - intros answer. by apply handleAnswer_None.
  - unfold isGameFinished. by rewrite Hsession.
Qed.

(** *** Finishing *)

Lemma size_list_to_set_NoDup (l : list Z) :
  size (list_to_set l : gset Z) = length l → NoDup l.
Proof.
  induction l as [|x l IH]; intros Hsize; [constructor|].
  rewrite list_to_set_cons, length_cons in Hsize.
  pose proof (size_list_to_set_le l) as Hle.
  destruct (decide (x ∈ l)) as [Hx|Hx].
  - exfalso.
    assert ({[x]} ∪ (list_to_set l : gset Z) = list_to_set l) as Heq
      by set_solver.
    rewrite Heq in Hsize. lia.
  - rewrite size_union, size_singleton in Hsize by set_solver.
    apply NoDup_cons_2; [done|]. apply IH. lia.
Qed.

Lemma isGameFinished_true (S : list TriviaQuestion) (U : gset Z) :
  isGameFinished S U = true ↔ S ≠ [] ∧ (length S ≤ size U)%nat.
Proof.
  unfold isGameFinished. case_bool_decide as Hlen.
  - apply length_zero_iff_nil in Hlen. split; [done | tauto].
  - rewrite bool_decide_eq_true. split; [|by intros [_ ?]].
    intros ?. split; [|done]. intros ->. by apply Hlen.
Qed.

(** [X13].  Whatever the history, the game counts as finished exactly when
    the session is not empty, its identifiers are pairwise distinct, and
    every one of them is in the used set; and that is exactly when
    [handleContinue] moves to [GameOver] rather than back to
    [ChoosingDifficulty]. In particular a session with a repeated identifier
    never counts as finished. *)
Theorem finished_iff_all_used (actions : list Action) :
  let st := runActions initialState actions in
  let allUsed :=
    sessionQuestions st ≠ [] ∧ NoDup (map id (sessionQuestions st))
    ∧ ∀ q, q ∈ sessionQuestions st → id q ∈ usedQuestionIds st in
  (isGameFinished (sessionQuestions st) (usedQuestionIds st) = true ↔ allUsed)
  ∧ (gameState (handleContinue st) = GameOver ↔ allUsed)
  ∧ (gameState (handleContinue st) = ChoosingDifficulty ↔ ¬ allUsed).
Proof.
  intros st allUsed.
  destruct (runActions_coherent initialState actions initialState_coherent)
    as (Hused & _).
  fold st in Hused. unfold usedWithinSession in Hused.
  set (S := sessionQuestions st) in *. set (U := usedQuestionIds st) in *.
  set (I := list_to_set (map id S) : gset Z) in *.
  assert (HI : (size I ≤ length S)%nat).
  { unfold I. etrans; [apply size_list_to_set_le|]. by rewrite length_map. }
  assert (Hiff : isGameFinished S U = true ↔ allUsed).
  { rewrite isGameFinished_true. unfold allUsed. split.
    - intros [Hne Hlen]. split; [done|].
      pose proof (subseteq_size _ _ Hused) as HUI.
      assert (HUeq : U = I).
      { apply set_subseteq_size_eq; [done | lia]. }
      split.
      + apply size_list_to_set_NoDup. fold I. rewrite length_map. lia.
      + intros q Hq. rewrite HUeq. unfold I.
        apply elem_of_list_to_set, list_elem_of_fmap. by exists q.
    - intros (Hne & Hnd & Hall). split; [done|].
      assert (HIU : I ⊆ U).
      { intros i Hi. unfold I in Hi.
        apply elem_of_list_to_set, list_elem_of_fmap in Hi as (q & -> & Hq).
        by apply Hall. }
      pose proof (subseteq_size _ _ HIU) as Hsize.
      unfold I in Hsize. rewrite size_list_to_set, length_map in Hsize by done.
      done. }
  split; [done|].
  unfold handleContinue. fold S U.
  destruct (isGameFinished S U) eqn:Hfin; simpl.
  - split; split.
    + intros _. by apply Hiff.
    + done.
    + discriminate.
    + intros Hnot. exfalso. by apply Hnot, Hiff.
  - assert (Hnot : ¬ allUsed) by (intros Hall; by apply Hiff in Hall).
    split; split.
    + discriminate.
    + intros Hall. by destruct (Hnot Hall).
    + done.
    + done.
Qed.

(** *** Within a session *)

Lemma run_sessionQuestions st evs :
  forallb inSession evs = true →
  sessionQuestions (run st evs) = sessionQuestions st.
Proof.
  revert st. induction evs as [|e evs IH]; intros st Hevs; [done|].
  apply andb_true_iff in Hevs as [He Hevs].
  change (run st (e :: evs)) with (run (step st e) evs).
  by rewrite IH, step_sessionQuestions.
Qed.

(** [X15].  The bank is never written by a user event, and a session is
    frozen while it runs: no event other than a new [StartGame] changes the
    session questions. *)
Theorem session_frozen (st : State) (events : list Event) :
  allQuestions (run st events) = allQuestions st
  ∧ (forallb inSession events = true →
     sessionQuestions (run st events) = sessionQuestions st).
Proof.
  split; [apply run_allQuestions | apply run_sessionQuestions].
Qed.

(** [X14].  A session presents each of its questions at most once, so at
    most as many questions as it holds: after [handleStartGame], the number
    of questions presented by the events of the session is the size of the
    used set, and it is at most the length of the session. *)
Theorem presented_at_most_session (shuffle : Shuffle) (st : State)
    (events : list Event) :
  forallb inSession events = true →
  let st0 := handleStartGame shuffle st in
  length (presented st0 events) = size (usedQuestionIds (run st0 events))
  ∧ (length (presented st0 events) ≤ length (sessionQuestions st0))%nat.
Proof.
  intros Hevs st0.
  assert (Hsize : length (presented st0 events)
                  = size (usedQuestionIds (run st0 events))).
  { rewrite run_used by done.
    assert (usedQuestionIds st0 = ∅) as -> by done.
    rewrite (left_id_L ∅ (∪)), size_list_to_set by (by apply presented_NoDup).
    by rewrite length_map. }
  split; [done|]. rewrite Hsize.
  rewrite <- (run_sessionQuestions st0 events Hevs).
  apply usedWithinSession_size, run_usedWithinSession; [done|].
  apply handleStartGame_usedWithinSession.
Qed.

(** [X16].  Submitting twice for the same question, within the safe
    integers: the stored answer and the feedback are those of the second
    submission alone, while the score keeps what either submission
    earned. *)
Theorem last_answer_wins (a b : string) (st : State) (q : TriviaQuestion) :
  currentQuestion st = Some q →
  safePlay st [SubmitAnswer a; SubmitAnswer b] = true →
  let st2 := handleAnswer b (handleAnswer a st) in
  selectedAnswer st2 = Some b
  ∧ feedback st2 = feedback (handleAnswer b st)
  ∧ gameState st2 = Answered
  ∧ currentQuestion st2 = Some q
  ∧ score st2
    = score st
      + (if String.eqb a (respuesta_correcta q) then puntuacion q else 0)
      + (if String.eqb b (respuesta_correcta q) then puntuacion q else 0).
Proof.
  intros Hq Hsafe st2. unfold st2.
  rewrite (handleAnswer_Some b (handleAnswer a st) q)
    by (by rewrite (handleAnswer_Some a st q Hq)).
  rewrite (handleAnswer_Some b st q Hq), (handleAnswer_Some a st q Hq). simpl.
  repeat split.
  destruct (String.eqb a (respuesta_correcta q)),
           (String.eqb b (respuesta_correcta q)); lia.
Qed.

Lemma step_fetchQuestions result st e :
  inSession e = true →
  step (fetchQuestions result st) e = fetchQuestions result (step st e).
Proof.
  intros He. destruct result as [questions|]; [|done].
  destruct e as [shuffle|random T|answer| |]; simpl in He |- *.
  - discriminate.
  - rewrite !handleSelectDifficulty_presentedBy.
    change (presentedBy random T (setAllQuestions questions st))
      with (presentedBy random T st).
    by destruct (presentedBy random T st).
  - unfold handleAnswer. simpl. destruct (currentQuestion st) as [q|]; [|done].
    by destruct (String.eqb answer (respuesta_correcta q)).
  - unfold handleContinue. simpl. by destruct (isGameFinished _ _).
  - done.
Qed.

(** [X18].  A load that settles in the middle of a session does not disturb
    it: the events of the session lead to the same state, but for the bank,
    whether the load settles before or after them. *)
Theorem late_load_keeps_session (result : LoadResult) (st : State)
    (events : list Event) :
  forallb inSession events = true →
  run (fetchQuestions result st) events = fetchQuestions result (run st events).
Proof.
  intros Hevs. revert st.
  induction events as [|e events IH]; intros st; [done|].
  apply andb_true_iff in Hevs as [He Hevs].
  change (run ?s (e :: events)) with (run (step s e) events).
  by rewrite step_fetchQuestions, IH.
Qed.

Lemma act_Start st a : gameState (act st a) = Start → gameState st = Start.
Proof.
  destruct a as [[shuffle|random T|answer| |]|[questions|]]; simpl.
  - discriminate.
  - rewrite handleSelectDifficulty_presentedBy.
    by destruct (presentedBy random T st).
  - unfold handleAnswer. destruct (currentQuestion st) as [q|]; [|done].
    by destruct (String.eqb answer (respuesta_correcta q)).
  - unfold handleContinue. by destruct (isGameFinished _ _).
  - discriminate.
  - done.
  - done.
Qed.

(** [X19].  The phase [Start] is the phase of a component nothing has
    happened to: whatever the history, a state in the phase [Start] is the
    initial state but for its bank; and the phase [Start], once left, is
    never entered again. *)
Theorem start_phase_is_pristine (actions more : list Action) :
  let st := runActions initialState actions in
  (gameState st = Start → st = initialState |> setAllQuestions (allQuestions st))
  ∧ (gameState st ≠ Start → gameState (runActions st more) ≠ Start).
Proof.
  intros st. split.
  - intros Hphase.
    destruct (runActions_coherent initialState actions initialState_coherent)
      as (_ & _ & _ & Hans & Hstart).
    fold st in Hans, Hstart. rewrite Hphase in Hstart.
    destruct Hstart as (Hsession & Hused & Hcur & Hscore & Hfb).
    specialize (Hans Hfb).
    destruct st; simpl in *. by subst.
  - generalize st. clear st.
    induction more as [|a more IH]; intros st Hphase; [done|].
    apply (IH (act st a)). intros Hstart. by apply Hphase, (act_Start st a).
Qed.

End App.

(** ** The theorems at work on the sample data *)

(** A fresh session on [bank], and the session on [sampleBank] once its
    first easy question has been presented. *)
Abbreviation started bank :=
  (handleStartGame fourTiers keepOrder (loaded bank)) (only parsing).
Abbreviation asked :=
  (handleSelectDifficulty fourTiers drawZero Fácil (started sampleBank))
  (only parsing).

Lemma isGameFinished_empty_session_counterexample :
  ¬ (isGameFinished [] ∅ = true
     ↔ size (∅ : gset Z) = length ([] : list TriviaQuestion)).
Proof. intros [_ Hfinished]. by specialize (Hfinished eq_refl). Qed.

Lemma isGameFinished_iff_witness :
  (size sampleUsed ≤ length sampleBank)%nat
  ∧ (isGameFinished sampleBank sampleUsed = true
     ↔ sampleBank ≠ [] ∧ size sampleUsed = length sampleBank).
Proof.
  split.
  - vm_compute. lia.
  - apply (isGameFinished_iff fourTiers sampleBank sampleUsed). vm_compute. lia.
Defined.

Lemma score_claim_counterexample :
  score (run fourTiers (started penaltyBank) answerOnce)
  < score (started penaltyBank)
  ∧ score (run fourTiers (started sampleBank) answerTwice) = 2
  ∧ remove_dups (answeredCorrectly fourTiers (started sampleBank) answerTwice)
    = [sampleQuestion 1 Fácil "a" 1].
Proof. by vm_compute. Qed.

Lemma score_sums_correct_submissions_witness :
  forallb inSession (answerOnce ++ secondRound) = true
  ∧ safePlay fourTiers (started sampleBank) (answerOnce ++ secondRound) = true
  ∧ nonnegPoints (started sampleBank)
  ∧ score (run fourTiers (started sampleBank) (answerOnce ++ secondRound))
    = score (started sampleBank)
      + points (answeredCorrectly fourTiers (started sampleBank)
                  (answerOnce ++ secondRound))
  ∧ score (run fourTiers (started sampleBank) answerOnce)
    <= score (run fourTiers (started sampleBank) (answerOnce ++ secondRound)).
Proof.
  assert (Hnonneg : nonnegPoints (started sampleBank)).
  { intros q [Hq|Hq]; [|discriminate Hq].
    apply list_elem_of_In in Hq. vm_compute in Hq.
    destruct Hq as [<-|[<-|[<-|[]]]]; vm_compute; discriminate. }
  split; [reflexivity | split; [reflexivity | split; [exact Hnonneg|]]].
  destruct (score_sums_correct_submissions fourTiers (started sampleBank)
              answerOnce secondRound eq_refl eq_refl) as (Hsum & _ & Hmono).
  split; [exact Hsum | exact (Hmono Hnonneg)].
Defined.

Lemma availableQuestionsByDifficulty_partition_witness :
  NoDup fourTiers ∧ (∀ d, d ∈ fourTiers)
  ∧ concat (map (λ T, default []
                        (availableQuestionsByDifficulty fourTiers
                           sampleBank sampleUsed !! T))
                fourTiers)
    ++ filter (λ q, id q ∈ sampleUsed) sampleBank
    ≡ₚ sampleBank.
Proof.
  assert (Hnd : NoDup fourTiers) by compute_done.
  assert (Hall : ∀ d, d ∈ fourTiers).
  { intros d. destruct d; unfold fourTiers; repeat constructor. }
  split; [exact Hnd | split; [exact Hall|]].
  apply (availableQuestionsByDifficulty_partition fourTiers sampleBank
           sampleUsed Hnd Hall).
Defined.

Lemma selectSessionQuestions_quota_witness :
  NoDup fourTiers ∧ (∀ l, keepOrder l ≡ₚ l)
  ∧ (∀ T, (length (filter (λ q, nivel q = T)
                     (selectSessionQuestions fourTiers keepOrder sampleBank))
           ≤ 10)%nat)
  ∧ (∀ q, q ∈ selectSessionQuestions fourTiers keepOrder sampleBank →
          q ∈ sampleBank).
Proof.
  assert (Hnd : NoDup fourTiers) by compute_done.
  assert (Hperm : ∀ l, keepOrder l ≡ₚ l) by reflexivity.
  split; [exact Hnd | split; [exact Hperm|]].
  destruct (selectSessionQuestions_quota fourTiers keepOrder sampleBank
              Hnd Hperm) as (Hquota & Hbank & _).
  split; [exact Hquota | exact Hbank].
Defined.

Lemma handleSelectDifficulty_guard_witness :
  Fácil ∈ fourTiers
  ∧ filter (λ q, id q ∉ usedQuestionIds (started sampleBank))
      (filter (λ q, nivel q = Fácil) (sessionQuestions (started sampleBank)))
    ≠ []
  ∧ ∃ question,
      question ∈ sampleBank
      ∧ currentQuestion
          (handleSelectDifficulty fourTiers drawHalf Fácil (started sampleBank))
        = Some question.
Proof.
  assert (Hin : Fácil ∈ fourTiers) by (unfold fourTiers; repeat constructor).
  assert (Hne : filter (λ q, id q ∉ usedQuestionIds (started sampleBank))
                  (filter (λ q, nivel q = Fácil)
                     (sessionQuestions (started sampleBank))) ≠ []).
  { vm_compute. discriminate. }
  split; [exact Hin | split; [exact Hne|]].
  destruct (handleSelectDifficulty_guard fourTiers drawHalf Fácil
              (started sampleBank)) as [_ Hpick].
  destruct (Hpick Hin Hne) as (question & Hq & Hst).
  exists question. split.
  - apply list_elem_of_filter in Hq as [_ Hq].
    apply list_elem_of_filter in Hq as [_ Hq].
    apply list_elem_of_In in Hq. apply list_elem_of_In.
    vm_compute in Hq |- *. tauto.
  - by rewrite Hst.
Defined.

Lemma used_never_presented_again_witness :
  forallb inSession (answerOnce ++ secondRound) = true
  ∧ NoDup (map id (presented fourTiers (started sampleBank)
                     (answerOnce ++ secondRound)))
  ∧ usedQuestionIds (run fourTiers (started sampleBank) answerOnce)
    ⊆ usedQuestionIds
        (run fourTiers (started sampleBank) (answerOnce ++ secondRound)).
Proof.
  split; [reflexivity|].
  destruct (used_never_presented_again fourTiers (started sampleBank)
              answerOnce secondRound eq_refl) as (_ & _ & Hnd & Hsub & _).
  split; [exact Hnd | exact Hsub].
Defined.

Lemma handleAnswer_wrong_witness :
  currentQuestion asked = Some (sampleQuestion 1 Fácil "a" 1)
  ∧ "x" ≠ respuesta_correcta (sampleQuestion 1 Fácil "a" 1)
  ∧ score (handleAnswer "x" asked) = score asked
  ∧ feedback (handleAnswer "x" asked)
    = Some (mkFeedback false "a" "explicacion")
  ∧ gameState (handleAnswer "x" asked) = Answered.
Proof.
  assert (Hq : currentQuestion asked = Some (sampleQuestion 1 Fácil "a" 1))
    by reflexivity.
  assert (Hne : "x" ≠ respuesta_correcta (sampleQuestion 1 Fácil "a" 1))
    by discriminate.
  split; [exact Hq | split; [exact Hne|]].
  destruct (handleAnswer_wrong "x" asked _ Hq Hne)
    as (Hscore & Hfeedback & _ & Hphase & _).
  split; [exact Hscore | split; [exact Hfeedback | exact Hphase]].
Defined.

Lemma handleAnswer_any_phase_witness :
  gameState (handleAnswer "a" asked) = Answered
  ∧ currentQuestion (handleAnswer "a" asked)
    = Some (sampleQuestion 1 Fácil "a" 1)
  ∧ isSafeInteger (score (handleAnswer "a" asked)) = true
  ∧ isSafeInteger (puntuacion (sampleQuestion 1 Fácil "a" 1)) = true
  ∧ isSafeInteger (score (handleAnswer "a" asked)
                   + puntuacion (sampleQuestion 1 Fácil "a" 1)) = true
  ∧ score (handleAnswer "a" asked) = 1
  ∧ score (handleAnswer "a" (handleAnswer "a" asked)) = 2.
Proof.
  assert (Hq : currentQuestion (handleAnswer "a" asked)
               = Some (sampleQuestion 1 Fácil "a" 1)) by reflexivity.
  split; [reflexivity | split; [exact Hq|]].
  split; [reflexivity | split; [reflexivity | split; [reflexivity|]]].
  split; [reflexivity|].
  destruct (handleAnswer_any_phase "a" (handleAnswer "a" asked) _ Hq)
    as [_ Hagain].
  destruct (Hagain eq_refl eq_refl eq_refl eq_refl) as [Hscore _].
  exact Hscore.
Defined.

Lemma selectSessionQuestions_length_witness :
  (∀ l, keepOrder l ≡ₚ l)
  ∧ length (selectSessionQuestions fourTiers keepOrder sampleBank) = 3%nat.
Proof.
  assert (Hperm : ∀ l, keepOrder l ≡ₚ l) by reflexivity.
  split; [exact Hperm|].
  destruct (selectSessionQuestions_length fourTiers keepOrder sampleBank Hperm)
    as [Hlen _].
  exact Hlen.
Defined.

Lemma selectSessionQuestions_no_repeats_witness :
  NoDup fourTiers ∧ (∀ l, keepOrder l ≡ₚ l) ∧ NoDup (map id sampleBank)
  ∧ NoDup (map id (selectSessionQuestions fourTiers keepOrder sampleBank)).
Proof.
  assert (Hnd : NoDup fourTiers) by compute_done.
  assert (Hperm : ∀ l, keepOrder l ≡ₚ l) by reflexivity.
  assert (Hids : NoDup (map id sampleBank)) by compute_done.
  split; [exact Hnd | split; [exact Hperm | split; [exact Hids|]]].
  destruct (selectSessionQuestions_no_repeats fourTiers keepOrder sampleBank
              Hnd Hperm) as [_ Hsession].
  exact (Hsession Hids).
Defined.

Lemma small_bank_taken_whole_witness :
  NoDup fourTiers ∧ (∀ d, d ∈ fourTiers) ∧ (∀ l, keepOrder l ≡ₚ l)
  ∧ (∀ T, (length (filter (λ q, nivel q = T) sampleBank) ≤ 10)%nat)
  ∧ selectSessionQuestions fourTiers keepOrder sampleBank ≡ₚ sampleBank.
Proof.
  assert (Hnd : NoDup fourTiers) by compute_done.
  assert (Hall : ∀ d, d ∈ fourTiers).
  { intros d. destruct d; unfold fourTiers; repeat constructor. }
  assert (Hperm : ∀ l, keepOrder l ≡ₚ l) by reflexivity.
  assert (Hsmall : ∀ T, (length (filter (λ q, nivel q = T) sampleBank)
                         ≤ 10)%nat).
  { intros T. destruct T; vm_compute; lia. }
  split; [exact Hnd | split; [exact Hall | split; [exact Hperm|]]].
  split; [exact Hsmall|].
  exact (small_bank_taken_whole fourTiers keepOrder sampleBank
           Hnd Hall Hperm Hsmall).
Defined.

Lemma counts_after_start_witness :
  NoDup fourTiers ∧ (∀ l, keepOrder l ≡ₚ l) ∧ Fácil ∈ fourTiers
  ∧ availableCounts fourTiers (sessionQuestions (started sampleBank))
      (usedQuestionIds (started sampleBank)) !! Fácil
    = Some 2%nat.
Proof.
  assert (Hnd : NoDup fourTiers) by compute_done.
  assert (Hperm : ∀ l, keepOrder l ≡ₚ l) by reflexivity.
  assert (Hin : Fácil ∈ fourTiers) by (unfold fourTiers; repeat constructor).
  split; [exact Hnd | split; [exact Hperm | split; [exact Hin|]]].
  exact (counts_after_start fourTiers keepOrder (loaded sampleBank) Fácil
           Hnd Hperm Hin).
Defined.

Lemma availableCounts_add_up_witness :
  NoDup fourTiers ∧ (∀ d, d ∈ fourTiers)
  ∧ (sum_list (map (λ T, default 0%nat
                           (availableCounts fourTiers sampleBank sampleUsed
                              !! T))
                   fourTiers)
     + length (filter (λ q, id q ∈ sampleUsed) sampleBank)
     = length sampleBank)%nat.
Proof.
  assert (Hnd : NoDup fourTiers) by compute_done.
  assert (Hall : ∀ d, d ∈ fourTiers).
  { intros d. destruct d; unfold fourTiers; repeat constructor. }
  split; [exact Hnd | split; [exact Hall|]].
  destruct (availableCounts_add_up fourTiers sampleBank sampleUsed Hnd Hall)
    as [_ Hsum].
  exact Hsum.
Defined.

Lemma select_decrements_count_witness :
  NoDup (map id (sessionQuestions (started sampleBank)))
  ∧ asked ≠ started sampleBank
  ∧ availableCounts fourTiers (sessionQuestions asked) (usedQuestionIds asked)
      !! Fácil
    = Some 1%nat.
Proof.
  assert (Hids : NoDup (map id (sessionQuestions (started sampleBank))))
    by compute_done.
  assert (Hchg : asked ≠ started sampleBank).
  { intros Heq. apply (f_equal gameState) in Heq. discriminate Heq. }
  split; [exact Hids | split; [exact Hchg|]].
  exact (select_decrements_count fourTiers drawZero Fácil (started sampleBank)
           Hids Hchg Fácil).
Defined.

Lemma history_current_question_witness :
  currentQuestion (runActions fourTiers initialState sampleHistory)
  = Some (sampleQuestion 1 Fácil "a" 1)
  ∧ id (sampleQuestion 1 Fácil "a" 1)
    ∈ usedQuestionIds (runActions fourTiers initialState sampleHistory).
Proof.
  assert (Hq : currentQuestion (runActions fourTiers initialState sampleHistory)
               = Some (sampleQuestion 1 Fácil "a" 1)) by reflexivity.
  split; [exact Hq|].
  destruct (history_current_question fourTiers sampleHistory _ Hq)
    as (_ & Hused & _).
  exact Hused.
Defined.

Lemma renderContent_history_witness :
  renderContent fourTiers (runActions fourTiers initialState sampleHistory)
  = QuestionView
      (Some (mkQuestionCardProps (sampleQuestion 1 Fácil "a" 1) None None))
      None
  ∧ selectedAnswer (runActions fourTiers initialState sampleHistory) = None.
Proof.
  assert (Hview : renderContent fourTiers
                    (runActions fourTiers initialState sampleHistory)
                  = QuestionView
                      (Some (mkQuestionCardProps
                               (sampleQuestion 1 Fácil "a" 1) None None))
                      None) by reflexivity.
  split; [exact Hview|].
  destruct (renderContent_history fourTiers sampleHistory _ _ Hview)
    as (_ & _ & Hnone).
  destruct (Hnone eq_refl) as [Hans _].
  exact Hans.
Defined.

Lemma nothing_to_play_without_questions_witness :
  forallb bringsNothing failedHistory = true
  ∧ barren (runActions fourTiers initialState failedHistory).
Proof.
  split; [reflexivity|].
  destruct (nothing_to_play_without_questions fourTiers failedHistory eq_refl)
    as [Hbarren _].
  exact Hbarren.
Defined.

Lemma presented_at_most_session_witness :
  forallb inSession (answerOnce ++ secondRound) = true
  ∧ (length (presented fourTiers (started sampleBank)
               (answerOnce ++ secondRound))
     ≤ length (sessionQuestions (started sampleBank)))%nat.
Proof.
  split; [reflexivity|].
  destruct (presented_at_most_session fourTiers keepOrder (loaded sampleBank)
              (answerOnce ++ secondRound) eq_refl) as [_ Hle].
  exact Hle.
Defined.

Lemma session_frozen_witness :
  forallb inSession answerTwice = true
  ∧ sessionQuestions (run fourTiers (started sampleBank) answerTwice)
    = sessionQuestions (started sampleBank).
Proof.
  split; [reflexivity|].
  destruct (session_frozen fourTiers (started sampleBank) answerTwice)
    as [_ Hsession].
  exact (Hsession eq_refl).
Defined.

Lemma last_answer_wins_witness :
  currentQuestion asked = Some (sampleQuestion 1 Fácil "a" 1)
  ∧ safePlay fourTiers asked [SubmitAnswer "a"; SubmitAnswer "x"] = true
  ∧ feedback (handleAnswer "x" (handleAnswer "a" asked))
    = feedback (handleAnswer "x" asked)
  ∧ score (handleAnswer "x" (handleAnswer "a" asked)) = 1.
Proof.
  assert (Hq : currentQuestion asked = Some (sampleQuestion 1 Fácil "a" 1))
    by reflexivity.
  split; [exact Hq | split; [reflexivity|]].
  destruct (last_answer_wins fourTiers "a" "x" asked _ Hq eq_refl)
    as (_ & Hfeedback & _ & _ & Hscore).
  split; [exact Hfeedback | exact Hscore].
Defined.

Lemma late_load_keeps_session_witness :
  forallb inSession answerOnce = true
  ∧ run fourTiers (fetchQuestions (Resolved penaltyBank) (started sampleBank))
      answerOnce
    = fetchQuestions (Resolved penaltyBank)
        (run fourTiers (started sampleBank) answerOnce).
Proof.
  split; [reflexivity|].
  exact (late_load_keeps_session fourTiers (Resolved penaltyBank)
           (started sampleBank) answerOnce eq_refl).
Defined.

Lemma start_phase_is_pristine_witness :
  gameState (runActions fourTiers initialState [Fetched (Resolved sampleBank)])
  = Start
  ∧ runActions fourTiers initialState [Fetched (Resolved sampleBank)]
    = loaded sampleBank.
Proof.
  split; [reflexivity|].
  destruct (start_phase_is_pristine fourTiers [Fetched (Resolved sampleBank)] [])
    as [Hpristine _].
  exact (Hpristine eq_refl).
Defined.
